(** * circletron: last successful build revision on a branch

    A shallow embedding of [src/circle.ts] and the properties of its
    selection algorithm: status priorities, deduplication of workflows by
    name, the green check of one pipeline, the sequential scan over the
    pipelines and the top-level resolver with its try/catch. *)

From Stdlib Require Import String Ascii List ZArith Bool Lia Permutation.
From Stdlib Require OrderedTypeEx.
Import ListNotations.
Open Scope string_scope.

Set Implicit Arguments.

(** ** The fragment of JavaScript the code relies on *)

Module JS.

(** The values that can come out of a property lookup on the literal
    [statusPriority]: a number (an own property), [undefined] (no such
    property), or an object found on the prototype chain.  An object is
    only ever used by [>] here, which sees it through its primitive
    (the string [toString] gives). *)
Inductive value : Type :=
| Num (n : Z)
| Undefined
| Obj (primitive : string).

(** ToBoolean: [0] and [undefined] are falsy, objects are truthy. *)
Definition truthy (v : value) : bool :=
  match v with
  | Num n => negb (n =? 0)%Z
  | Undefined => false
  | Obj _ => true
  end.

(** [a || b] *)
Definition or (a b : value) : value := if truthy a then a else b.

(** [a > b]: two strings are compared by code units; otherwise both
    sides go through ToNumber, where [undefined] and each of the
    primitives of [Object_prototype] below give NaN, and a comparison
    with NaN is false. *)
Definition gt (a b : value) : bool :=
  match a, b with
  | Num x, Num y => (x >? y)%Z
  | Obj s, Obj t => (t <? s)%string
  | _, _ => false
  end.

Definition native (f : string) : value :=
  Obj ("function " ++ f ++ "() { [native code] }").

(** What every object literal inherits: the properties of
    [Object.prototype], with the primitive of each value. *)
Definition Object_prototype : list (string * value) :=
  [ ("constructor", native "Object");
    ("__defineGetter__", native "__defineGetter__");
    ("__defineSetter__", native "__defineSetter__");
    ("hasOwnProperty", native "hasOwnProperty");
    ("__lookupGetter__", native "__lookupGetter__");
    ("__lookupSetter__", native "__lookupSetter__");
    ("isPrototypeOf", native "isPrototypeOf");
    ("propertyIsEnumerable", native "propertyIsEnumerable");
    ("toString", native "toString");
    ("valueOf", native "valueOf");
    ("__proto__", Obj "[object Object]");
    ("toLocaleString", native "toLocaleString") ].

Fixpoint own (props : list (string * value)) (key : string) : option value :=
  match props with
  | [] => None
  | (k, v) :: rest => if k =? key then Some v else own rest key
  end.

(** [obj[key]] for an object literal with own properties [props]. *)
Definition get (props : list (string * value)) (key : string) : value :=
  match own props key with
  | Some v => v
  | None =>
      match own Object_prototype key with
      | Some v => v
      | None => Undefined
      end
  end.

(** The keys that reach the prototype of an object literal. *)
Definition inherited (key : string) : bool :=
  match own Object_prototype key with Some _ => true | None => false end.

End JS.

(** ** An insertion-ordered [Map<string, V>] *)

Module Map.
Section WithValue.
Variable V : Type.

Definition t := list (string * V).

Definition empty : t := [].

Fixpoint get (m : t) (key : string) : option V :=
  match m with
  | [] => None
  | (k, v) :: rest => if k =? key then Some v else get rest key
  end.

(** [set] on a present key replaces the value where it stands; a new
    key goes last. *)
Fixpoint set (m : t) (key : string) (v : V) : t :=
  match m with
  | [] => [(key, v)]
  | (k, x) :: rest =>
      if k =? key then (k, v) :: rest else (k, x) :: set rest key v
  end.

Definition keys (m : t) : list string := map fst m.
Definition values (m : t) : list V := map snd m.
End WithValue.

Arguments empty {V}.
End Map.

(** ** Data model *)

Module CirclePipelineState.
Definition Created := "created".
Definition Errored := "errored".
Definition SetupPending := "setup-pending".
Definition Setup := "setup".
Definition Pending := "pending".
End CirclePipelineState.

Module CircleWorkflowStatus.
Definition Success := "success".
Definition Running := "running".
Definition NotRun := "not_run".
Definition Failed := "failed".
Definition Error := "error".
Definition Failing := "failing".
Definition OnHold := "on_hold".
Definition Canceled := "canceled".
Definition Unauthorized := "unauthorized".

(** The closed set of the enum. *)
Definition all : list string :=
  [Success; Running; NotRun; Failed; Error; Failing; OnHold; Canceled;
   Unauthorized].
End CircleWorkflowStatus.

Record CirclePipelineError := mkPipelineError
  { error_type : string; error_message : string }.

Record CirclePipelineVCSInfo := mkVCS
  { provider_name : string; revision : string }.

Record CirclePipelineItem := mkPipeline
  { pipeline_id : string;
    errors : list CirclePipelineError;
    state : string;
    vcs : CirclePipelineVCSInfo }.

Record CircleWorkflowItem := mkWorkflow
  { workflow_id : string; name : string; status : string }.

Record CirclePipelines := mkPipelines { pipeline_items : list CirclePipelineItem }.
Record CircleWorkflows := mkWorkflows { workflow_items : list CircleWorkflowItem }.

(** ** shouldPreferWorkflow *)

Definition statusPriority : list (string * JS.value) :=
  [ (CircleWorkflowStatus.Success, JS.Num 5);
    (CircleWorkflowStatus.OnHold, JS.Num 4);
    (CircleWorkflowStatus.Running, JS.Num 3);
    (CircleWorkflowStatus.NotRun, JS.Num 2);
    (CircleWorkflowStatus.Failed, JS.Num 1);
    (CircleWorkflowStatus.Error, JS.Num 1);
    (CircleWorkflowStatus.Failing, JS.Num 1);
    (CircleWorkflowStatus.Canceled, JS.Num 1);
    (CircleWorkflowStatus.Unauthorized, JS.Num 0) ].

(** [statusPriority[s] || 0] *)
Definition priority (s : string) : JS.value :=
  JS.or (JS.get statusPriority s) (JS.Num 0).

Definition shouldPreferWorkflow (candidate existing : CircleWorkflowItem) : bool :=
  let candidatePriority := priority (status candidate) in
  let existingPriority := priority (status existing) in
  JS.gt candidatePriority existingPriority.

(** ** Deduplication by name and the green check *)

(** One turn of the loop over [workflowData.items]. *)
Definition dedupeStep (workflowMap : Map.t CircleWorkflowItem)
    (workflow : CircleWorkflowItem) : Map.t CircleWorkflowItem :=
  match Map.get workflowMap (name workflow) with
  | None => Map.set workflowMap (name workflow) workflow
  | Some existing =>
      if shouldPreferWorkflow workflow existing
      then Map.set workflowMap (name workflow) workflow
      else workflowMap
  end.

Definition workflowMap (items : list CircleWorkflowItem) : Map.t CircleWorkflowItem :=
  fold_left dedupeStep items Map.empty.

(** [Array.from(workflowMap.values())] *)
Definition uniqueWorkflows (items : list CircleWorkflowItem) : list CircleWorkflowItem :=
  Map.values (workflowMap items).

(** [[Success, OnHold].includes(workflow.status)] *)
Definition passed (workflow : CircleWorkflowItem) : bool :=
  existsb (String.eqb (status workflow))
    [CircleWorkflowStatus.Success; CircleWorkflowStatus.OnHold].

Definition successfulWorkflows (items : list CircleWorkflowItem) : list CircleWorkflowItem :=
  filter passed (uniqueWorkflows items).

(** The value the callback returns once the workflows are fetched. *)
Definition allPassed (items : list CircleWorkflowItem) : bool :=
  (0 <? length (successfulWorkflows items))%nat
  && (length (successfulWorkflows items) =? length (uniqueWorkflows items))%nat.

(** ** Effects: HTTP requests, exceptions and the console *)

(** A thrown [Error]; only its message is ever read. *)
Record Error := mkError { message : string }.

Inductive Event : Type :=
| HttpGet (url : string) (headers params : list (string * string))
| ConsoleLog (text : string).

Inductive Outcome (A : Type) : Type :=
| Returned (a : A)
| Thrown (e : Error).

Arguments Returned {A} a.
Arguments Thrown {A} e.

(** An asynchronous computation: it extends the log of what has happened
    so far and either returns or throws.  There is one thread of control
    and every promise is awaited where it is created. *)
Definition Async (A : Type) : Type := list Event -> Outcome A * list Event.

Definition ret {A} (a : A) : Async A := fun log => (Returned a, log).

Definition bind {A B} (m : Async A) (k : A -> Async B) : Async B :=
  fun log =>
    match m log with
    | (Returned a, log') => k a log'
    | (Thrown e, log') => (Thrown e, log')
    end.

Definition lift {A} (o : Outcome A) : Async A := fun log => (o, log).

Definition emit {A} (ev : Event) (o : Outcome A) : Async A :=
  fun log => (o, (log ++ [ev])%list).

Definition tryCatch {A} (body : Async A) (handler : Error -> Async A) : Async A :=
  fun log =>
    match body log with
    | (Returned a, log') => (Returned a, log')
    | (Thrown e, log') => handler e log'
    end.

Declare Scope async_scope.
Delimit Scope async_scope with async.
Notation "x <- m ;; k" := (bind m (fun x => k))
  (at level 61, m at next level, right associativity) : async_scope.
Notation "m ;;; k" := (bind m (fun _ => k))
  (at level 61, right associativity) : async_scope.
Open Scope async_scope.

(** What the function takes from outside [circle.ts]: [requireEnv] of
    [./env] (it returns the variable or throws), the first capture of the
    regular expression on the build URL (absent when there is no match),
    and the answers of the Circle API to the two GET requests. *)
Record World := mkWorld
  { requireEnv : string -> Outcome string;
    slugCapture : string -> option string;
    pipelinesResponse :
      string -> list (string * string) -> list (string * string) ->
      Outcome CirclePipelines;
    workflowsResponse :
      string -> list (string * string) -> Outcome CircleWorkflows }.

Definition CIRCLE_API_URL := "https://circleci.com/api/v2".

Definition console_log (text : string) : Async unit :=
  emit (ConsoleLog text) (Returned tt).

Fixpoint find {I : Type} (items : list I) (asyncCallback : I -> Async bool)
  : Async (option I) :=
  match items with
  | [] => ret None
  | element :: rest =>
      shouldReturn <- asyncCallback element ;;
      if shouldReturn then ret (Some element) else find rest asyncCallback
  end.

Section Resolver.
Variable world : World.

(** [axios.get<CirclePipelines>(url, { headers, params: { branch } })] *)
Definition getPipelines (url : string) (headers : list (string * string))
    (branch : string) : Async CirclePipelines :=
  emit (HttpGet url headers [("branch", branch)])
       (pipelinesResponse world url headers [("branch", branch)]).

(** [axios.get<CircleWorkflows>(url, { headers })] *)
Definition getWorkflows (url : string) (headers : list (string * string))
  : Async CircleWorkflows :=
  emit (HttpGet url headers []) (workflowsResponse world url headers).

Definition workflowUrl (pipeline : CirclePipelineItem) : string :=
  CIRCLE_API_URL ++ "/pipeline/" ++ pipeline_id pipeline ++ "/workflow".

Definition pipelineUrl (slugAndBuildNumber : string) : string :=
  CIRCLE_API_URL ++ "/project/" ++ slugAndBuildNumber ++ "/pipeline".

(** The callback handed to [find]. *)
Definition isSuccessfulBuild (headers : list (string * string))
    (pipeline : CirclePipelineItem) : Async bool :=
  if state pipeline =? CirclePipelineState.Created then
    workflowData <- getWorkflows (workflowUrl pipeline) headers ;;
    ret (allPassed (workflow_items workflowData))
  else ret false.

(** [if (slugAndBuildNumber)]: a string is truthy unless it is empty. *)
Definition truthySlug (slugAndBuildNumber : option string) : option string :=
  match slugAndBuildNumber with
  | Some "" => None
  | other => other
  end.

Definition getLastSuccessfulBuildRevisionOnBranch (branch : string)
  : Async (option string) :=
  tryCatch
    (buildUrl <- lift (requireEnv world "CIRCLE_BUILD_URL") ;;
     let slugAndBuildNumber := slugCapture world buildUrl in
     circleToken <- lift (requireEnv world "CIRCLE_TOKEN") ;;
     let headers := [("Circle-Token", circleToken)] in
     match truthySlug slugAndBuildNumber with
     | Some slug =>
         pipelineData <- getPipelines (pipelineUrl slug) headers branch ;;
         lastSuccessfulBuild <-
           find (pipeline_items pipelineData) (isSuccessfulBuild headers) ;;
         ret (option_map (fun p => revision (vcs p)) lastSuccessfulBuild)
     | None => ret None
     end)
    (fun e =>
       console_log ("Failed to call Circle API v2 with error: " ++ message e) ;;;
       ret None).
End Resolver.

(** ** The vocabulary of the specification *)

(** StatusRanker as the specification's table reads: the nine statuses,
    and 0 for anything else. *)
Definition rank (s : string) : Z :=
  if s =? "success" then 5
  else if s =? "on_hold" then 4
  else if s =? "running" then 3
  else if s =? "not_run" then 2
  else if s =? "failed" then 1
  else if s =? "error" then 1
  else if s =? "failing" then 1
  else if s =? "canceled" then 1
  else 0.

(** A status of the closed set. *)
Definition recognized (s : string) : bool :=
  existsb (String.eqb s) CircleWorkflowStatus.all.

(** A status that does not name a property of [Object.prototype]; every
    status of the closed set is one ([recognized_plain] below). *)
Definition plain (s : string) : Prop := JS.inherited s = false.

Definition plainStatuses (items : list CircleWorkflowItem) : Prop :=
  Forall (fun w => plain (status w)) items.

(** The distinct elements of a list, each where it first occurs. *)
Fixpoint distinctNames (l : list string) : list string :=
  match l with
  | [] => []
  | x :: rest => x :: filter (fun y => negb (y =? x)) (distinctNames rest)
  end.

(** The workflow requests a scan makes when it evaluates every pipeline
    of [pipelines]: one per pipeline in state [created], in order. *)
Definition workflowRequests (headers : list (string * string))
    (pipelines : list CirclePipelineItem) : list Event :=
  map (fun p => HttpGet (workflowUrl p) headers [])
      (filter (fun p => state p =? CirclePipelineState.Created) pipelines).

(** The evaluator's answer for one pipeline. *)
Definition verdict (world : World) (headers : list (string * string))
    (pipeline : CirclePipelineItem) : Outcome bool :=
  fst (isSuccessfulBuild world headers pipeline []).

(** The configuration is present and the pipeline request is answered
    with [pipelines]. *)
Definition configured (world : World) (branch slug circleToken : string)
    (pipelines : list CirclePipelineItem) : Prop :=
  exists buildUrl,
    requireEnv world "CIRCLE_BUILD_URL" = Returned buildUrl
    /\ truthySlug (slugCapture world buildUrl) = Some slug
    /\ requireEnv world "CIRCLE_TOKEN" = Returned circleToken
    /\ pipelinesResponse world (pipelineUrl slug)
         [("Circle-Token", circleToken)] [("branch", branch)]
       = Returned (mkPipelines pipelines).

(** The ways a resolution can fail: a missing variable, a build URL the
    pattern does not match, a failed pipeline request, or a failed
    workflow request for a pipeline the scan reaches. *)
Inductive Failure (world : World) (branch : string) : Prop :=
| NoBuildUrl e :
    requireEnv world "CIRCLE_BUILD_URL" = Thrown e -> Failure world branch
| NoSlug buildUrl :
    requireEnv world "CIRCLE_BUILD_URL" = Returned buildUrl ->
    truthySlug (slugCapture world buildUrl) = None ->
    Failure world branch
| NoToken buildUrl e :
    requireEnv world "CIRCLE_BUILD_URL" = Returned buildUrl ->
    requireEnv world "CIRCLE_TOKEN" = Thrown e ->
    Failure world branch
| PipelinesFailed buildUrl slug circleToken e :
    requireEnv world "CIRCLE_BUILD_URL" = Returned buildUrl ->
    truthySlug (slugCapture world buildUrl) = Some slug ->
    requireEnv world "CIRCLE_TOKEN" = Returned circleToken ->
    pipelinesResponse world (pipelineUrl slug)
      [("Circle-Token", circleToken)] [("branch", branch)] = Thrown e ->
    Failure world branch
| WorkflowsFailed slug circleToken before pipeline after e :
    configured world branch slug circleToken (before ++ pipeline :: after) ->
    Forall (fun q => verdict world [("Circle-Token", circleToken)] q
                     = Returned false) before ->
    verdict world [("Circle-Token", circleToken)] pipeline = Thrown e ->
    Failure world branch.

(** What the [catch] block writes to the console. *)
Definition failureLog (e : Error) : Event :=
  ConsoleLog ("Failed to call Circle API v2 with error: " ++ message e).

(** The headers every request carries. *)
Definition tokenHeaders (circleToken : string) : list (string * string) :=
  [("Circle-Token", circleToken)].

Ltac split_status s :=
  repeat match goal with
         | |- context [s =? ?c] =>
             destruct (String.eqb_spec s c) as [->|?]; [reflexivity|]
         end.

(** ** Sample data *)

Definition reruns : list CircleWorkflowItem :=
  [ mkWorkflow "w1" "build" "failed";
    mkWorkflow "w2" "test" "on_hold";
    mkWorkflow "w3" "build" "success";
    mkWorkflow "w4" "build" "success" ].

(** A first run whose status names a property of [Object.prototype],
    and its successful rerun. *)
Definition stale : CircleWorkflowItem := mkWorkflow "w1" "build" "constructor".
Definition rerun : CircleWorkflowItem := mkWorkflow "w2" "build" "success".

(** A second run of [stale]'s workflow whose status names another
    property of [Object.prototype]. *)
Definition staleAgain : CircleWorkflowItem := mkWorkflow "w3" "build" "toString".

Definition P1 := mkPipeline "p1" [] "pending" (mkVCS "GitHub" "a1").
Definition P2 := mkPipeline "p2" [] "created" (mkVCS "GitHub" "b2").
Definition P3 := mkPipeline "p3" [] "created" (mkVCS "GitHub" "c3").

(** Both variables are set, the build URL matches, the branch has the
    pipelines [P1; P2; P3], and [workflows] answers the workflow requests. *)
Definition sampleWorld (workflows : string -> Outcome CircleWorkflows) : World :=
  mkWorld
    (fun v =>
       if v =? "CIRCLE_BUILD_URL" then Returned "https://circleci.com/gh/org/repo/42"
       else if v =? "CIRCLE_TOKEN" then Returned "secret"
       else Thrown (mkError ("Missing " ++ v)))
    (fun _ => Some "gh/org/repo")
    (fun _ _ _ => Returned (mkPipelines [P1; P2; P3]))
    (fun url _ => workflows url).

Definition allGreen (url : string) : Outcome CircleWorkflows :=
  Returned (mkWorkflows reruns).

Definition noWorkflows (url : string) : Outcome CircleWorkflows :=
  Returned (mkWorkflows []).

Definition secondFails (url : string) : Outcome CircleWorkflows :=
  if url =? workflowUrl P2 then Thrown (mkError "Network Error")
  else Returned (mkWorkflows reruns).

(** ** The pattern on the build URL *)

(** The regular expression of [getLastSuccessfulBuildRevisionOnBranch]
    (the characters of "circleci.com/", a group of three greedy runs of
    [.] with a slash between them, and a slash) and its [exec], as a
    backtracking matcher over the constructs the pattern uses.  A string
    is read as its sequence of code units, all of them below 256, so that
    the line terminators are LF and CR. *)
Module RegExp.

Inductive pattern : Type :=
| Char (c : Ascii.ascii)
| AnyStar
| Seq (p q : pattern)
| Group (p : pattern).

(** What [.] does not match. *)
Definition lineTerminator (c : Ascii.ascii) : bool :=
  (c =? "010")%char || (c =? "013")%char.

(** A continuation receives the rest of the input and the capture. *)
Definition Cont (R : Type) : Type := string -> option string -> option R.

Definition char {R} (c : Ascii.ascii) (input : string) (cap : option string)
    (k : Cont R) : option R :=
  match input with
  | String c' rest => if (c' =? c)%char then k rest cap else None
  | EmptyString => None
  end.

(** [.*] is greedy: the longest run first, then one character less. *)
Fixpoint star {R} (input : string) (cap : option string) (k : Cont R)
  : option R :=
  match input with
  | String c rest =>
      if lineTerminator c then k input cap
      else match star rest cap k with
           | Some r => Some r
           | None => k input cap
           end
  | EmptyString => k input cap
  end.

(** The part of [input] that was read when [rest] is left. *)
Definition consumed (input rest : string) : string :=
  substring 0 (String.length input - String.length rest) input.

Fixpoint matcher {R} (p : pattern) (input : string) (cap : option string)
    (k : Cont R) : option R :=
  match p with
  | Char c => char c input cap k
  | AnyStar => star input cap k
  | Seq p1 p2 =>
      matcher p1 input cap (fun rest cap' => matcher p2 rest cap' k)
  | Group p1 =>
      matcher p1 input cap (fun rest _ => k rest (Some (consumed input rest)))
  end.

(** [exec] without flags: the match at the leftmost index that has one.
    The result is the first capture of the match. *)
Fixpoint exec (p : pattern) (input : string) : option (option string) :=
  match matcher p input None (fun _ cap => Some cap) with
  | Some cap => Some cap
  | None =>
      match input with
      | String _ rest => exec p rest
      | EmptyString => None
      end
  end.

(** The characters of [s], then [p]. *)
Fixpoint chars (s : string) (p : pattern) : pattern :=
  match s with
  | String c rest => Seq (Char c) (chars rest p)
  | EmptyString => p
  end.

End RegExp.

Definition slugPattern : RegExp.pattern :=
  RegExp.chars "circleci.com/"
    (RegExp.Seq
       (RegExp.Group
          (RegExp.Seq RegExp.AnyStar
             (RegExp.Seq (RegExp.Char "/")
                (RegExp.Seq RegExp.AnyStar
                   (RegExp.Seq (RegExp.Char "/") RegExp.AnyStar)))))
       (RegExp.Char "/")).

(** [slugPattern.exec(buildUrl)?.[1]] *)
Definition slugAndBuildNumber (buildUrl : string) : option string :=
  match RegExp.exec slugPattern buildUrl with
  | Some (Some capture) => Some capture
  | _ => None
  end.

(** The world in which the capture is the one of the pattern. *)
Definition withPattern (world : World) : World :=
  mkWorld (requireEnv world) slugAndBuildNumber
          (pipelinesResponse world) (workflowsResponse world).

(** How often [c] occurs in [s]. *)
Fixpoint count (c : Ascii.ascii) (s : string) : nat :=
  match s with
  | String c' rest => (if (c' =? c)%char then 1 else 0) + count c rest
  | EmptyString => 0
  end.

(** No line terminator in [s]. *)
Fixpoint singleLine (s : string) : bool :=
  match s with
  | String c rest => negb (RegExp.lineTerminator c) && singleLine rest
  | EmptyString => true
  end.

(** The slashes of the first line of [t]. *)
Fixpoint slashes (t : string) : nat :=
  match t with
  | String c rest =>
      if RegExp.lineTerminator c then 0
      else (if (c =? "/")%char then 1 else 0) + slashes rest
  | EmptyString => 0
  end.

(** What follows the last slash of the first line of [t], when that line
    has a slash. *)
Fixpoint afterLastSlash (t : string) : string :=
  match t with
  | String c rest =>
      if RegExp.lineTerminator c then EmptyString
      else if (0 <? slashes rest)%nat then afterLastSlash rest
      else rest
  | EmptyString => EmptyString
  end.

(** What [j] greedy runs, each closed by a slash, give on [t] when the
    match ends with the result [F] of what is left: with no run it is
    [F t]; otherwise the first line of [t] must have [j] slashes, and the
    result is [F] of what follows the last of them. *)
Definition slashRuns {R} (F : string -> R) (j : nat) (t : string) : option R :=
  match j with
  | O => Some (F t)
  | S _ =>
      if (j <=? slashes t)%nat then Some (F (afterLastSlash t)) else None
  end.

(** No variable is set. *)
Definition bareWorld : World :=
  mkWorld (fun v => Thrown (mkError ("Missing " ++ v)))
          slugAndBuildNumber
          (fun _ _ _ => Thrown (mkError "Network Error"))
          (fun _ _ => Thrown (mkError "Network Error")).

(** The build URL is [buildUrl], and the rest is as in [sampleWorld]. *)
Definition worldWithBuildUrl (buildUrl : string) : World :=
  mkWorld
    (fun v =>
       if v =? "CIRCLE_BUILD_URL" then Returned buildUrl
       else if v =? "CIRCLE_TOKEN" then Returned "secret"
       else Thrown (mkError ("Missing " ++ v)))
    slugAndBuildNumber
    (fun _ _ _ => Returned (mkPipelines [P1; P2; P3]))
    (fun url _ => allGreen url).

(** ** Facts about the map *)

Section MapFacts.
Variable V : Type.
Implicit Types (m : Map.t V) (k : string) (v : V).

Lemma get_set_same m k v : Map.get (Map.set m k v) k = Some v.
Proof.
  induction m as [|[k' x] m IH]; simpl.
  - now rewrite String.eqb_refl.
  - destruct (k' =? k) eqn:E; simpl; rewrite E; auto.
Qed.

Lemma get_set_other m k k' v :
  k <> k' -> Map.get (Map.set m k v) k' = Map.get m k'.
Proof.
  intros Hne. induction m as [|[k0 x] m IH]; simpl.
  - apply String.eqb_neq in Hne. now rewrite Hne.
  - destruct (k0 =? k) eqn:E; simpl.
    + apply String.eqb_eq in E. subst k0.
      apply String.eqb_neq in Hne. now rewrite Hne.
    + now rewrite IH.
Qed.

Lemma keys_set m k v :
  Map.keys (Map.set m k v)
  = match Map.get m k with
    | Some _ => Map.keys m
    | None => (Map.keys m ++ [k])%list
    end.
Proof.
  induction m as [|[k0 x] m IH]; simpl; auto.
  destruct (k0 =? k) eqn:E; simpl; auto.
  rewrite IH. now destruct (Map.get m k).
Qed.

Lemma get_None m k : Map.get m k = None <-> ~ In k (Map.keys m).
Proof.
  induction m as [|[k0 x] m IH]; simpl.
  - tauto.
  - destruct (k0 =? k) eqn:E.
    + apply String.eqb_eq in E. split; [discriminate | tauto].
    + apply String.eqb_neq in E. tauto.
Qed.

Lemma get_In m k v : Map.get m k = Some v -> In (k, v) m.
Proof.
  induction m as [|[k0 x] m IH]; simpl; [discriminate|].
  destruct (k0 =? k) eqn:E.
  - apply String.eqb_eq in E. intros [= ->]. subst. now left.
  - auto.
Qed.

Lemma In_get m k v : NoDup (Map.keys m) -> In (k, v) m -> Map.get m k = Some v.
Proof.
  induction m as [|[k0 x] m IH]; simpl; [tauto|].
  intros Hnd [[= -> ->]|Hin].
  - now rewrite String.eqb_refl.
  - inversion Hnd as [|? ? Hk0 Hnd']; subst.
    destruct (k0 =? k) eqn:E; auto.
    apply String.eqb_eq in E. subst k0. exfalso. apply Hk0.
    change k with (fst (k, v)). now apply in_map.
Qed.

Lemma In_set m k v k' v' :
  In (k', v') (Map.set m k v) -> (k' = k /\ v' = v) \/ In (k', v') m.
Proof.
  induction m as [|[k0 x] m IH]; simpl.
  - intros [[= <- <-]|[]]. now left.
  - destruct (k0 =? k) eqn:E; simpl.
    + apply String.eqb_eq in E. subst k0.
      intros [[= <- <-]|Hin]; [now left | now right; right].
    + intros [Heq|Hin]; [now right; left|].
      destruct (IH Hin); [now left | now right; right].
Qed.
End MapFacts.

(** ** Facts about [distinctNames] *)

Lemma In_distinctNames x l : In x (distinctNames l) <-> In x l.
Proof.
  induction l as [|a l IH]; simpl; [tauto|].
  rewrite filter_In, IH, negb_true_iff, String.eqb_neq.
  destruct (String.eqb_spec a x); [tauto|].
  split; [tauto|]. intros [?|?]; [tauto|]. right. split; congruence.
Qed.

Lemma NoDup_distinctNames l : NoDup (distinctNames l).
Proof.
  induction l as [|a l IH]; simpl; constructor.
  - rewrite filter_In, negb_true_iff, String.eqb_neq. tauto.
  - now apply NoDup_filter.
Qed.

Lemma distinctNames_snoc l x :
  distinctNames (l ++ [x])
  = (distinctNames l
     ++ if existsb (String.eqb x) l then [] else [x])%list.
Proof.
  induction l as [|a l IH]; simpl; auto.
  rewrite IH, filter_app. f_equal. f_equal.
  destruct (existsb (String.eqb x) l); simpl.
  - now rewrite orb_true_r.
  - rewrite orb_false_r. now destruct (x =? a).
Qed.

Lemma existsb_eqb_In x l : existsb (String.eqb x) l = true <-> In x l.
Proof.
  rewrite existsb_exists. split.
  - intros (y & Hin & E). apply String.eqb_eq in E. now subst.
  - intros Hin. exists x. split; auto. apply String.eqb_refl.
Qed.

Lemma set_fresh (V : Type) (m : Map.t V) k v :
  Map.get m k = None -> Map.set m k v = (m ++ [(k, v)])%list.
Proof.
  induction m as [|[k0 x] m IH]; simpl; auto.
  destruct (k0 =? k); [discriminate|]. intros E. now rewrite IH.
Qed.

(** ** Priorities *)

Lemma own_cons props k v key :
  JS.own ((k, v) :: props) key = if k =? key then Some v else JS.own props key.
Proof. reflexivity. Qed.

(** Away from the names of [Object.prototype], [statusPriority[s] || 0]
    is the number of the specification's table. *)
Lemma priority_plain s : plain s -> priority s = JS.Num (rank s).
Proof.
  intros Hp. unfold rank. split_status s.
  unfold priority, JS.get, statusPriority.
  unfold CircleWorkflowStatus.Success, CircleWorkflowStatus.OnHold,
    CircleWorkflowStatus.Running, CircleWorkflowStatus.NotRun,
    CircleWorkflowStatus.Failed, CircleWorkflowStatus.Error,
    CircleWorkflowStatus.Failing, CircleWorkflowStatus.Canceled,
    CircleWorkflowStatus.Unauthorized.
  rewrite !own_cons.
  repeat match goal with
         | H : s <> ?c |- _ =>
             apply not_eq_sym, String.eqb_neq in H; rewrite H; clear H
         end.
  destruct (String.eqb_spec "unauthorized" s) as [<-|_]; [reflexivity|].
  unfold plain, JS.inherited in Hp. cbn [JS.own].
  now destruct (JS.own JS.Object_prototype s).
Qed.

Lemma recognized_plain s : recognized s = true -> plain s.
Proof.
  unfold recognized. rewrite existsb_eqb_In. simpl.
  intros H. repeat destruct H as [<-|H]; try reflexivity. contradiction.
Qed.

Lemma rank_nonneg s : (0 <= rank s)%Z.
Proof. unfold rank. repeat destruct (s =? _); lia. Qed.

Lemma shouldPrefer_rank c e :
  plain (status c) -> plain (status e) ->
  shouldPreferWorkflow c e = (rank (status c) >? rank (status e))%Z.
Proof.
  intros Hc He. unfold shouldPreferWorkflow.
  now rewrite (priority_plain Hc), (priority_plain He).
Qed.

(** ** The loop of the deduplication *)

Lemma workflowMap_snoc ws w :
  workflowMap (ws ++ [w]) = dedupeStep (workflowMap ws) w.
Proof. unfold workflowMap. now rewrite fold_left_app. Qed.

Lemma keys_dedupeStep m w :
  Map.keys (dedupeStep m w)
  = match Map.get m (name w) with
    | Some _ => Map.keys m
    | None => (Map.keys m ++ [name w])%list
    end.
Proof.
  unfold dedupeStep. destruct (Map.get m (name w)) eqn:E.
  - destruct (shouldPreferWorkflow w c); auto. now rewrite keys_set, E.
  - now rewrite keys_set, E.
Qed.

Lemma get_dedupeStep_other m w n :
  name w <> n -> Map.get (dedupeStep m w) n = Map.get m n.
Proof.
  intros Hne. unfold dedupeStep.
  destruct (Map.get m (name w)); [destruct (shouldPreferWorkflow w c)|];
    auto using get_set_other.
Qed.

Lemma keys_workflowMap ws :
  Map.keys (workflowMap ws) = distinctNames (map name ws).
Proof.
  induction ws as [|w ws IH] using rev_ind; [reflexivity|].
  rewrite workflowMap_snoc, keys_dedupeStep, map_app.
  change (map name [w]) with [name w].
  rewrite distinctNames_snoc, <- IH.
  destruct (Map.get (workflowMap ws) (name w)) eqn:E.
  - assert (In (name w) (map name ws)) as Hin.
    { apply In_distinctNames. rewrite <- IH.
      destruct (in_dec string_dec (name w) (Map.keys (workflowMap ws)))
        as [|Hn]; auto.
      apply get_None in Hn. congruence. }
    apply existsb_eqb_In in Hin. rewrite Hin. now rewrite app_nil_r.
  - destruct (existsb (String.eqb (name w)) (map name ws)) eqn:Ex; auto.
    apply existsb_eqb_In, In_distinctNames in Ex. rewrite <- IH in Ex.
    apply get_None in E. contradiction.
Qed.

Lemma NoDup_keys_workflowMap ws : NoDup (Map.keys (workflowMap ws)).
Proof. rewrite keys_workflowMap. apply NoDup_distinctNames. Qed.

Lemma get_workflowMap_None ws n :
  Map.get (workflowMap ws) n = None <-> ~ In n (map name ws).
Proof. now rewrite get_None, keys_workflowMap, In_distinctNames. Qed.

Lemma entries_workflowMap ws k v :
  In (k, v) (workflowMap ws) -> name v = k /\ In v ws.
Proof.
  revert k v. induction ws as [|w ws IH] using rev_ind; intros k v.
  - intros [].
  - rewrite workflowMap_snoc. unfold dedupeStep. intros Hin.
    assert ((k = name w /\ v = w) \/ In (k, v) (workflowMap ws)) as [[-> ->]|H].
    { destruct (Map.get (workflowMap ws) (name w));
        [destruct (shouldPreferWorkflow w c)|]; auto using In_set. }
    + split; auto. apply in_or_app. right. now left.
    + destruct (IH _ _ H). split; auto. apply in_or_app. now left.
Qed.

Lemma names_uniqueWorkflows ws :
  map name (uniqueWorkflows ws) = Map.keys (workflowMap ws).
Proof.
  unfold uniqueWorkflows, Map.values, Map.keys. rewrite map_map.
  apply map_ext_in. intros [k v] Hin. simpl.
  now destruct (entries_workflowMap _ _ _ Hin).
Qed.

Lemma In_uniqueWorkflows ws e :
  In e (uniqueWorkflows ws) <-> Map.get (workflowMap ws) (name e) = Some e.
Proof.
  unfold uniqueWorkflows, Map.values. split.
  - rewrite in_map_iff. intros ([k v] & <- & Hin). simpl.
    destruct (entries_workflowMap _ _ _ Hin) as [-> _].
    apply In_get; auto using NoDup_keys_workflowMap.
  - intros Hget. apply get_In in Hget.
    change e with (snd (name e, e)). now apply in_map.
Qed.

Lemma workflowMap_distinct ws :
  NoDup (map name ws) -> workflowMap ws = map (fun w => (name w, w)) ws.
Proof.
  induction ws as [|w ws IH] using rev_ind; [reflexivity|].
  rewrite map_app. simpl. intros Hnd.
  apply NoDup_remove in Hnd. rewrite app_nil_r in Hnd. destruct Hnd as [Hnd Hw].
  rewrite workflowMap_snoc. unfold dedupeStep.
  apply get_workflowMap_None in Hw. rewrite Hw.
  rewrite set_fresh by assumption. rewrite IH by assumption.
  now rewrite map_app.
Qed.

(** The entry stored under a name stands in the input where the highest
    rank of that name first occurs. *)
Lemma entry_earliest_max ws :
  plainStatuses ws ->
  forall n e, Map.get (workflowMap ws) n = Some e ->
  exists before after,
    ws = (before ++ e :: after)%list /\ name e = n
    /\ (forall w, In w before -> name w = n ->
                  (rank (status w) < rank (status e))%Z)
    /\ (forall w, In w after -> name w = n ->
                  (rank (status w) <= rank (status e))%Z).
Proof.
  induction ws as [|w ws IH] using rev_ind; intros Hplain n e.
  - discriminate.
  - apply Forall_app in Hplain. destruct Hplain as [Hws Hw].
    inversion Hw as [|? ? Hpw _]; subst. specialize (IH Hws).
    rewrite workflowMap_snoc.
    destruct (String.eqb_spec (name w) n) as [<-|Hne].
    + unfold dedupeStep.
      destruct (Map.get (workflowMap ws) (name w)) as [ex|] eqn:E.
      * destruct (IH _ _ E) as (b & a & -> & Hname & Hb & Ha).
        assert (plain (status ex)) as Hpex.
        { rewrite Forall_forall in Hws. apply Hws.
          apply in_or_app. right. now left. }
        rewrite (shouldPrefer_rank w ex Hpw Hpex).
        destruct (rank (status w) >? rank (status ex))%Z eqn:P.
        -- rewrite get_set_same. intros [= <-].
           exists (b ++ ex :: a)%list, []. repeat split; auto.
           ++ intros w' Hin Hn. apply Z.gtb_lt in P.
              apply in_app_or in Hin. destruct Hin as [Hin|[<-|Hin]].
              ** specialize (Hb _ Hin Hn). lia.
              ** lia.
              ** specialize (Ha _ Hin Hn). lia.
           ++ intros w' [].
        -- rewrite E. intros [= <-].
           exists b, (a ++ [w])%list. rewrite <- app_assoc. repeat split; auto.
           intros w' Hin Hn. apply in_app_or in Hin.
           destruct Hin as [Hin|[<-|[]]]; auto.
           rewrite Z.gtb_ltb in P. apply Z.ltb_ge in P. lia.
      * rewrite get_set_same. intros [= <-].
        exists ws, []. repeat split; auto.
        -- intros w' Hin Hn. apply get_workflowMap_None in E.
           exfalso. apply E. rewrite <- Hn. now apply in_map.
        -- intros w' [].
    + rewrite get_dedupeStep_other by assumption. intros E.
      destruct (IH _ _ E) as (b & a & -> & Hname & Hb & Ha).
      exists b, (a ++ [w])%list. rewrite <- app_assoc. repeat split; auto.
      intros w' Hin Hn. apply in_app_or in Hin.
      destruct Hin as [Hin|[<-|[]]]; auto. contradiction.
Qed.

Lemma allPassed_spec ws :
  allPassed ws = true
  <-> uniqueWorkflows ws <> []
      /\ (forall e, In e (uniqueWorkflows ws) ->
                    status e = CircleWorkflowStatus.Success
                    \/ status e = CircleWorkflowStatus.OnHold).
Proof.
  unfold allPassed, successfulWorkflows.
  set (u := uniqueWorkflows ws).
  assert (forall e, passed e = true
                    <-> status e = CircleWorkflowStatus.Success
                        \/ status e = CircleWorkflowStatus.OnHold) as Hp.
  { intros e. unfold passed. cbn [existsb].
    rewrite orb_false_r, orb_true_iff, !String.eqb_eq. tauto. }
  rewrite andb_true_iff, Nat.ltb_lt, Nat.eqb_eq. split.
  - intros [Hpos Hlen]. split.
    + intros Hu. rewrite Hu in Hpos. simpl in Hpos. lia.
    + intros e Hin. apply Hp.
      assert (filter passed u = u) as Hf.
      { clear -Hlen. induction u as [|x u IH]; simpl in *; auto.
        destruct (passed x); simpl in *.
        - f_equal. apply IH. lia.
        - pose proof (filter_length_le passed u). lia. }
      rewrite <- Hf in Hin. now apply filter_In in Hin.
  - intros [Hne Hall].
    assert (filter passed u = u) as Hf.
    { apply forallb_filter_id, forallb_forall. intros e Hin.
      apply Hp. auto. }
    rewrite Hf. split; auto. destruct u; [congruence | simpl; lia].
Qed.

Lemma uniqueWorkflows_distinct ws :
  NoDup (map name ws) -> uniqueWorkflows ws = ws.
Proof.
  intros Hnd. unfold uniqueWorkflows, Map.values.
  rewrite (workflowMap_distinct _ Hnd), map_map. apply map_id.
Qed.

Lemma uniqueWorkflows_In ws e : In e (uniqueWorkflows ws) -> In e ws.
Proof.
  intros Hin. apply In_uniqueWorkflows, get_In in Hin.
  now apply entries_workflowMap in Hin.
Qed.

Lemma entry_max_rank ws :
  plainStatuses ws ->
  forall e w, In e (uniqueWorkflows ws) -> In w ws -> name w = name e ->
              (rank (status w) <= rank (status e))%Z.
Proof.
  intros Hplain e w He Hw Hn. apply In_uniqueWorkflows in He.
  destruct (entry_earliest_max Hplain _ He) as (b & a & -> & _ & Hb & Ha).
  apply in_app_or in Hw. destruct Hw as [Hw|[<-|Hw]].
  - specialize (Hb _ Hw Hn). lia.
  - lia.
  - auto.
Qed.

Lemma dedupe_pair_better_first W1 W2 :
  plain (status W1) -> plain (status W2) -> name W1 = name W2 ->
  (rank (status W1) > rank (status W2))%Z ->
  uniqueWorkflows [W1; W2] = [W1].
Proof.
  intros H1 H2 Hn Hr. unfold uniqueWorkflows, workflowMap. cbn [fold_left].
  unfold dedupeStep at 2. cbn [Map.get Map.empty Map.set].
  unfold dedupeStep. cbn [Map.get]. rewrite Hn, String.eqb_refl.
  rewrite (shouldPrefer_rank W2 W1 H2 H1).
  destruct (rank (status W2) >? rank (status W1))%Z eqn:P; [|reflexivity].
  apply Z.gtb_lt in P. lia.
Qed.

Lemma dedupe_pair_better_last W1 W2 :
  plain (status W1) -> plain (status W2) -> name W1 = name W2 ->
  (rank (status W1) > rank (status W2))%Z ->
  uniqueWorkflows [W2; W1] = [W1].
Proof.
  intros H1 H2 Hn Hr. unfold uniqueWorkflows, workflowMap. cbn [fold_left].
  unfold dedupeStep at 2. cbn [Map.get Map.empty Map.set].
  unfold dedupeStep. cbn [Map.get]. rewrite Hn, String.eqb_refl.
  rewrite (shouldPrefer_rank W1 W2 H1 H2).
  destruct (rank (status W1) >? rank (status W2))%Z eqn:P.
  - cbn [Map.set]. rewrite String.eqb_refl. reflexivity.
  - rewrite Z.gtb_ltb in P. apply Z.ltb_ge in P. lia.
Qed.

Lemma rank_unauthorized_least s :
  recognized s = true -> rank s = 0%Z -> s = CircleWorkflowStatus.Unauthorized.
Proof.
  unfold recognized. rewrite existsb_eqb_In. simpl.
  intros H. repeat destruct H as [<-|H]; try discriminate; auto.
  contradiction.
Qed.

(** A priority is a number that is not negative, or an inherited object. *)
Lemma priority_cases s :
  (exists n, priority s = JS.Num n /\ (0 <= n)%Z)
  \/ (exists o, priority s = JS.Obj o).
Proof.
  unfold priority, JS.get, statusPriority. rewrite !own_cons.
  repeat match goal with
         | |- context [if ?c =? s then _ else _] =>
             destruct (c =? s);
             [left; eexists; split; [reflexivity | lia]|]
         end.
  cbn [JS.own]. unfold JS.Object_prototype. rewrite !own_cons.
  repeat match goal with
         | |- context [if ?c =? s then _ else _] =>
             destruct (c =? s); [right; eexists; reflexivity|]
         end.
  left. exists 0%Z. split; [reflexivity | lia].
Qed.

(** An [unauthorized] candidate never replaces a stored entry, whatever
    the status of that entry. *)
Lemma unauthorized_never_preferred c e :
  status c = CircleWorkflowStatus.Unauthorized ->
  shouldPreferWorkflow c e = false.
Proof.
  intros Hs. unfold shouldPreferWorkflow. rewrite Hs.
  change (priority CircleWorkflowStatus.Unauthorized) with (JS.Num 0).
  destruct (priority_cases (status e)) as [(n & -> & Hn)|(o & ->)]; cbn.
  - rewrite Z.gtb_ltb. apply Z.ltb_ge. lia.
  - reflexivity.
Qed.

(** ** Claims about the deduplication *)

Lemma split_same (A : Type) (b b' : list A) x x' a a' :
  (b ++ x :: a = b' ++ x' :: a')%list ->
  (b = b' /\ x = x' /\ a = a')
  \/ (In x b' /\ In x' a)
  \/ (In x' b /\ In x a').
Proof.
  revert b'. induction b as [|y b IH]; intros [|y' b']; simpl; intros [= H1 H2].
  - subst. now left.
  - subst. right. left. split; [now left | apply in_elt].
  - subst. right. right. split; [now left | apply in_elt].
  - subst y'. destruct (IH _ H2) as [(-> & -> & ->)|[[Hx Hx']|[Hx' Hx]]].
    + now left.
    + right. left. split; [now right | assumption].
    + right. right. split; [now right | assumption].
Qed.

(** The deduplicated output has exactly one entry per name of the input,
    for every input.  When the statuses of the input have a numeric
    priority, the entry is an input workflow of the highest rank among
    those of its name; of two workflows of one name the one of higher
    rank is kept whichever comes first; and an [unauthorized] entry is
    kept only when no workflow of its name has another recognized
    status. *)
Theorem dedupe_one_entry_per_name_of_max_rank ws :
  NoDup (map name (uniqueWorkflows ws))
  /\ (forall n, In n (map name (uniqueWorkflows ws)) <-> In n (map name ws))
  /\ (plainStatuses ws ->
      (forall e, In e (uniqueWorkflows ws) ->
         In e ws
         /\ forall w, In w ws -> name w = name e ->
                      (rank (status w) <= rank (status e))%Z)
      /\ (forall W1 W2, In W1 ws -> In W2 ws -> name W1 = name W2 ->
            (rank (status W1) > rank (status W2))%Z ->
            uniqueWorkflows [W1; W2] = [W1]
            /\ uniqueWorkflows [W2; W1] = [W1]
            /\ forall e, In e (uniqueWorkflows ws) -> name e = name W1 ->
                         (rank (status W2) < rank (status e))%Z)
      /\ (forall e w, In e (uniqueWorkflows ws) ->
            status e = CircleWorkflowStatus.Unauthorized ->
            In w ws -> name w = name e -> recognized (status w) = true ->
            status w = CircleWorkflowStatus.Unauthorized)).
Proof.
  split; [|split].
  - rewrite names_uniqueWorkflows. apply NoDup_keys_workflowMap.
  - intros n. rewrite names_uniqueWorkflows, keys_workflowMap.
    apply In_distinctNames.
  - intros Hplain. pose proof Hplain as Hall.
    unfold plainStatuses in Hall. rewrite Forall_forall in Hall.
    split; [|split].
    + intros e He. split.
      * now apply uniqueWorkflows_In.
      * intros w Hw Hn. now apply (entry_max_rank Hplain e w).
    + intros W1 W2 H1 H2 Hn Hr. split; [|split].
      * apply dedupe_pair_better_first; auto.
      * apply dedupe_pair_better_last; auto.
      * intros e He Hne.
        assert (rank (status W1) <= rank (status e))%Z
          by (apply (entry_max_rank Hplain e W1); auto).
        lia.
    + intros e w Hin Hs Hw Hn Hrec.
      apply rank_unauthorized_least; auto.
      pose proof (entry_max_rank Hplain e w Hin Hw Hn) as Hle.
      rewrite Hs in Hle.
      change (rank CircleWorkflowStatus.Unauthorized) with 0%Z in Hle.
      pose proof (rank_nonneg (status w)). lia.
Qed.

(** When the statuses of the input have a numeric priority, the entries
    kept are exactly the workflows that stand where the highest rank of
    their name first occurs: every earlier workflow of the name ranks
    strictly lower and every later one ranks no higher.  A candidate is
    preferred exactly on a strictly greater rank, and a candidate of equal
    or lower rank leaves the map as it is. *)
Theorem dedupe_keeps_earliest_of_max_rank ws :
  plainStatuses ws ->
  (forall e,
     In e (uniqueWorkflows ws)
     <-> exists before after,
           ws = (before ++ e :: after)%list
           /\ (forall w, In w before -> name w = name e ->
                         (rank (status w) < rank (status e))%Z)
           /\ (forall w, In w after -> name w = name e ->
                         (rank (status w) <= rank (status e))%Z))
  /\ (forall c e, In c ws -> In e ws ->
        (shouldPreferWorkflow c e = true
         <-> (rank (status c) > rank (status e))%Z))
  /\ (forall m c e, In c ws -> In e ws ->
        Map.get m (name c) = Some e ->
        (rank (status c) <= rank (status e))%Z ->
        dedupeStep m c = m).
Proof.
  intros Hplain. pose proof Hplain as Hall.
  unfold plainStatuses in Hall. rewrite Forall_forall in Hall.
  split; [|split].
  - intros e. split.
    + intros He. apply In_uniqueWorkflows in He.
      destruct (entry_earliest_max Hplain _ He) as (b & a & Hws & _ & Hb & Ha).
      exists b, a. auto.
    + intros (b & a & Hws & Hb & Ha).
      assert (In e ws) as Hin by (rewrite Hws; apply in_elt).
      destruct (Map.get (workflowMap ws) (name e)) as [e'|] eqn:E.
      * destruct (entry_earliest_max Hplain _ E)
          as (b' & a' & Hws' & Hn & Hb' & Ha').
        rewrite Hws in Hws'.
        destruct (split_same _ _ _ _ _ _ Hws')
          as [(_ & -> & _)|[[He He']|[He' He]]].
        -- now apply In_uniqueWorkflows.
        -- pose proof (Hb' e He eq_refl). pose proof (Ha e' He' Hn). lia.
        -- pose proof (Hb e' He' Hn). pose proof (Ha' e He eq_refl). lia.
      * apply get_workflowMap_None in E. exfalso. apply E. now apply in_map.
  - intros c e Hc He. rewrite shouldPrefer_rank by auto.
    rewrite Z.gtb_ltb, Z.ltb_lt. lia.
  - intros m c e Hc He Hget Hle. unfold dedupeStep. rewrite Hget.
    rewrite shouldPrefer_rank by auto.
    destruct (rank (status c) >? rank (status e))%Z eqn:P; auto.
    apply Z.gtb_lt in P. lia.
Qed.

(** C7: deduplicating a deduplicated list gives it back. *)
Theorem dedupe_idempotent ws :
  uniqueWorkflows (uniqueWorkflows ws) = uniqueWorkflows ws.
Proof.
  apply uniqueWorkflows_distinct.
  rewrite names_uniqueWorkflows. apply NoDup_keys_workflowMap.
Qed.

(** C10: every entry of the deduplicated output is a workflow of the
    input, and the names of the output are the names of the input in the
    order in which each first occurs. *)
Theorem dedupe_entries_of_input_in_first_occurrence_order ws :
  (forall e, In e (uniqueWorkflows ws) -> In e ws)
  /\ map name (uniqueWorkflows ws) = distinctNames (map name ws).
Proof.
  split.
  - intros e. apply uniqueWorkflows_In.
  - rewrite names_uniqueWorkflows. apply keys_workflowMap.
Qed.

(** ** The evaluator, the scan and the resolver *)

Section Scan.
Variable world : World.
Variable headers : list (string * string).

Lemma isSuccessfulBuild_created p data log :
  state p = CirclePipelineState.Created ->
  workflowsResponse world (workflowUrl p) headers = Returned data ->
  isSuccessfulBuild world headers p log
  = (Returned (allPassed (workflow_items data)), (log ++ [HttpGet (workflowUrl p) headers []])%list).
Proof.
  intros Hs Hr. unfold isSuccessfulBuild, bind, getWorkflows, emit, ret.
  now rewrite Hs, String.eqb_refl, Hr.
Qed.

Lemma isSuccessfulBuild_thrown p e log :
  state p = CirclePipelineState.Created ->
  workflowsResponse world (workflowUrl p) headers = Thrown e ->
  isSuccessfulBuild world headers p log = (Thrown e, (log ++ [HttpGet (workflowUrl p) headers []])%list).
Proof.
  intros Hs Hr. unfold isSuccessfulBuild, bind, getWorkflows, emit, ret.
  now rewrite Hs, String.eqb_refl, Hr.
Qed.

(** The answer does not depend on what happened before; the log grows
    by the request, if one is made. *)
Lemma isSuccessfulBuild_verdict p log :
  isSuccessfulBuild world headers p log
  = (verdict world headers p, (log ++ workflowRequests headers [p])%list).
Proof.
  unfold verdict, workflowRequests, isSuccessfulBuild. cbn [filter].
  destruct (state p =? CirclePipelineState.Created).
  - unfold bind, getWorkflows, emit, ret.
    now destruct (workflowsResponse world (workflowUrl p) headers).
  - unfold ret. simpl. now rewrite app_nil_r.
Qed.

Lemma workflowRequests_app ps qs :
  workflowRequests headers (ps ++ qs)
  = (workflowRequests headers ps ++ workflowRequests headers qs)%list.
Proof. unfold workflowRequests. now rewrite filter_app, map_app. Qed.

Lemma workflowRequests_cons p ps :
  workflowRequests headers (p :: ps)
  = (workflowRequests headers [p] ++ workflowRequests headers ps)%list.
Proof. apply (workflowRequests_app [p] ps). Qed.

Lemma find_cons p rest log :
  find (p :: rest) (isSuccessfulBuild world headers) log
  = match verdict world headers p with
    | Returned true =>
        (Returned (Some p), (log ++ workflowRequests headers [p])%list)
    | Returned false =>
        find rest (isSuccessfulBuild world headers)
             (log ++ workflowRequests headers [p])%list
    | Thrown e => (Thrown e, (log ++ workflowRequests headers [p])%list)
    end.
Proof.
  cbn [find]. unfold bind at 1. rewrite isSuccessfulBuild_verdict.
  now destruct (verdict world headers p) as [[|]|].
Qed.

(** The scan walks over the pipelines that are not green, in order. *)
Lemma find_skip before rest log :
  Forall (fun q => verdict world headers q = Returned false) before ->
  find (before ++ rest) (isSuccessfulBuild world headers) log
  = find rest (isSuccessfulBuild world headers)
         (log ++ workflowRequests headers before)%list.
Proof.
  intros Hall. revert log.
  induction Hall as [|q before Hq _ IH]; intros log.
  - simpl. now rewrite app_nil_r.
  - rewrite <- app_comm_cons, find_cons, Hq, IH.
    now rewrite (workflowRequests_cons q before), app_assoc.
Qed.

Lemma find_first_green before p after log :
  Forall (fun q => verdict world headers q = Returned false) before ->
  verdict world headers p = Returned true ->
  find (before ++ p :: after) (isSuccessfulBuild world headers) log
  = (Returned (Some p),
     (log ++ workflowRequests headers (before ++ [p]))%list).
Proof.
  intros Hb Hp. rewrite (find_skip _ _ Hb), find_cons, Hp.
  now rewrite workflowRequests_app, app_assoc.
Qed.

Lemma find_none_green pipelines log :
  Forall (fun q => verdict world headers q = Returned false) pipelines ->
  find pipelines (isSuccessfulBuild world headers) log
  = (Returned None, (log ++ workflowRequests headers pipelines)%list).
Proof.
  intros Hall. rewrite <- (app_nil_r pipelines) at 1.
  now rewrite (find_skip _ _ Hall).
Qed.

Lemma find_thrown before p after e log :
  Forall (fun q => verdict world headers q = Returned false) before ->
  verdict world headers p = Thrown e ->
  find (before ++ p :: after) (isSuccessfulBuild world headers) log
  = (Thrown e, (log ++ workflowRequests headers (before ++ [p]))%list).
Proof.
  intros Hb Hp. rewrite (find_skip _ _ Hb), find_cons, Hp.
  now rewrite workflowRequests_app, app_assoc.
Qed.
End Scan.

Section Resolution.
Variable world : World.
Variable branch : string.

Lemma resolver_never_throws log :
  exists r log',
    getLastSuccessfulBuildRevisionOnBranch world branch log = (Returned r, log').
Proof.
  unfold getLastSuccessfulBuildRevisionOnBranch, tryCatch.
  match goal with |- context [match ?body log with _ => _ end] =>
    destruct (body log) as [[r|e] log'] end.
  - now exists r, log'.
  - now eexists _, _.
Qed.

Lemma resolver_configured slug circleToken pipelines log :
  configured world branch slug circleToken pipelines ->
  getLastSuccessfulBuildRevisionOnBranch world branch log
  = match find pipelines (isSuccessfulBuild world (tokenHeaders circleToken))
            (log ++ [HttpGet (pipelineUrl slug) (tokenHeaders circleToken)
                       [("branch", branch)]])%list with
    | (Returned last, log') =>
        (Returned (option_map (fun p => revision (vcs p)) last), log')
    | (Thrown e, log') => (Returned None, (log' ++ [failureLog e])%list)
    end.
Proof.
  intros (buildUrl & Hurl & Hslug & Htoken & Hpipelines).
  unfold tokenHeaders.
  unfold getLastSuccessfulBuildRevisionOnBranch, tryCatch, bind at 1, lift.
  rewrite Hurl. unfold bind at 1. rewrite Htoken, Hslug.
  unfold bind at 1, getPipelines, emit, tokenHeaders.
  rewrite Hpipelines. cbn [pipeline_items]. unfold bind at 1.
  destruct (find pipelines _ _) as [[last|e] log']; reflexivity.
Qed.
End Resolution.

(** ** Claims about the evaluator, the scan and the resolver *)

(** C1: for a pipeline in state [created] whose workflows are fetched,
    the evaluator answers green exactly when the deduplicated workflows
    are not empty and each has status [success] or [on_hold]; with no
    workflows the answer is not green. *)
Theorem created_pipeline_green_iff world headers p data log :
  state p = CirclePipelineState.Created ->
  workflowsResponse world (workflowUrl p) headers = Returned data ->
  exists green,
    isSuccessfulBuild world headers p log
    = (Returned green, (log ++ [HttpGet (workflowUrl p) headers []])%list)
    /\ (green = true
        <-> uniqueWorkflows (workflow_items data) <> []
            /\ forall e, In e (uniqueWorkflows (workflow_items data)) ->
                         status e = CircleWorkflowStatus.Success
                         \/ status e = CircleWorkflowStatus.OnHold)
    /\ (uniqueWorkflows (workflow_items data) = [] -> green = false)
    /\ (workflow_items data = [] -> green = false).
Proof.
  intros Hs Hr. exists (allPassed (workflow_items data)).
  split; [|split; [|split]].
  - now apply isSuccessfulBuild_created.
  - apply allPassed_spec.
  - intros Hu. unfold allPassed, successfulWorkflows. now rewrite Hu.
  - intros ->. reflexivity.
Qed.

Lemma created_pipeline_green_iff_witness :
  exists green,
    isSuccessfulBuild (sampleWorld allGreen) (tokenHeaders "secret") P2 []
    = (Returned green,
       ([] ++ [HttpGet (workflowUrl P2) (tokenHeaders "secret") []])%list)
    /\ (green = true
        <-> uniqueWorkflows (workflow_items (mkWorkflows reruns)) <> []
            /\ forall e,
                In e (uniqueWorkflows (workflow_items (mkWorkflows reruns))) ->
                status e = CircleWorkflowStatus.Success
                \/ status e = CircleWorkflowStatus.OnHold)
    /\ (uniqueWorkflows (workflow_items (mkWorkflows reruns)) = [] ->
        green = false)
    /\ (workflow_items (mkWorkflows reruns) = [] -> green = false).
Proof.
  apply (@created_pipeline_green_iff (sampleWorld allGreen)
           (tokenHeaders "secret") P2 (mkWorkflows reruns) []);
    reflexivity.
Defined.

(** C3: a pipeline whose state is not [created] is answered not green,
    and the log is left as it was: no workflow request is made. *)
Theorem not_created_pipeline_not_green_without_fetch world headers p log :
  state p <> CirclePipelineState.Created ->
  isSuccessfulBuild world headers p log = (Returned false, log).
Proof.
  intros Hs. unfold isSuccessfulBuild.
  apply String.eqb_neq in Hs. now rewrite Hs.
Qed.

Lemma not_created_pipeline_not_green_without_fetch_witness :
  state P1 <> CirclePipelineState.Created
  /\ isSuccessfulBuild (sampleWorld allGreen) (tokenHeaders "secret") P1 []
     = (Returned false, []).
Proof.
  assert (state P1 <> CirclePipelineState.Created) as H by discriminate.
  split; [exact H|].
  exact (@not_created_pipeline_not_green_without_fetch
           (sampleWorld allGreen) (tokenHeaders "secret") P1 [] H).
Defined.

(** C2: with the configuration present and the pipelines fetched, the
    resolver returns the revision of the first pipeline answered green,
    having requested the workflows of the pipelines up to and including
    that one, in order, and of none after it; when every pipeline is
    answered not green it returns none. *)
Theorem resolver_returns_first_green world branch slug circleToken pipelines :
  configured world branch slug circleToken pipelines ->
  (forall before p after,
      pipelines = (before ++ p :: after)%list ->
      Forall (fun q => verdict world (tokenHeaders circleToken) q
                       = Returned false) before ->
      verdict world (tokenHeaders circleToken) p = Returned true ->
      forall log,
        getLastSuccessfulBuildRevisionOnBranch world branch log
        = (Returned (Some (revision (vcs p))),
           (log ++ HttpGet (pipelineUrl slug) (tokenHeaders circleToken)
                     [("branch", branch)]
                :: workflowRequests (tokenHeaders circleToken)
                     (before ++ [p]))%list))
  /\ (Forall (fun q => verdict world (tokenHeaders circleToken) q
                       = Returned false) pipelines ->
      forall log,
        getLastSuccessfulBuildRevisionOnBranch world branch log
        = (Returned None,
           (log ++ HttpGet (pipelineUrl slug) (tokenHeaders circleToken)
                     [("branch", branch)]
                :: workflowRequests (tokenHeaders circleToken) pipelines)%list)).
Proof.
  intros Hcfg. split.
  - intros before p after -> Hb Hp log.
    rewrite (resolver_configured log Hcfg).
    rewrite find_first_green by assumption.
    cbn [option_map]. now rewrite <- app_assoc.
  - intros Hall log.
    rewrite (resolver_configured log Hcfg).
    rewrite find_none_green by assumption.
    cbn [option_map]. now rewrite <- app_assoc.
Qed.

Lemma sampleWorld_configured workflows :
  configured (sampleWorld workflows) "main" "gh/org/repo" "secret" [P1; P2; P3].
Proof.
  exists "https://circleci.com/gh/org/repo/42". repeat split; reflexivity.
Defined.

Lemma resolver_returns_first_green_witness :
  getLastSuccessfulBuildRevisionOnBranch (sampleWorld allGreen) "main" []
  = (Returned (Some (revision (vcs P2))),
     ([] ++ HttpGet (pipelineUrl "gh/org/repo") (tokenHeaders "secret")
              [("branch", "main")]
         :: workflowRequests (tokenHeaders "secret") ([P1] ++ [P2]))%list)
  /\ getLastSuccessfulBuildRevisionOnBranch (sampleWorld noWorkflows) "main" []
     = (Returned None,
        ([] ++ HttpGet (pipelineUrl "gh/org/repo") (tokenHeaders "secret")
                 [("branch", "main")]
            :: workflowRequests (tokenHeaders "secret") [P1; P2; P3])%list).
Proof.
  split.
  - apply (proj1 (resolver_returns_first_green (sampleWorld_configured allGreen))
             [P1] P2 [P3]).
    + reflexivity.
    + repeat constructor.
    + reflexivity.
  - apply (proj2 (resolver_returns_first_green
                    (sampleWorld_configured noWorkflows))).
    repeat constructor.
Defined.

(** C8: when anything in the chain fails (a variable is missing, the
    build URL does not match, the pipeline request fails, or a workflow
    request the scan reaches fails) the resolver returns none to its
    caller and does not throw; what the caller receives is what it
    receives when the requests succeed and no pipeline is green. *)
Theorem failures_report_absence world branch log :
  Failure world branch ->
  (exists log',
      getLastSuccessfulBuildRevisionOnBranch world branch log
      = (Returned None, log'))
  /\ (forall world' slug circleToken pipelines log',
         configured world' branch slug circleToken pipelines ->
         Forall (fun q => verdict world' (tokenHeaders circleToken) q
                          = Returned false) pipelines ->
         fst (getLastSuccessfulBuildRevisionOnBranch world' branch log')
         = fst (getLastSuccessfulBuildRevisionOnBranch world branch log)).
Proof.
  intros HF.
  assert (exists log',
             getLastSuccessfulBuildRevisionOnBranch world branch log
             = (Returned None, log')) as Habsent.
  { destruct HF as [e Hurl|buildUrl Hurl Hslug|buildUrl e Hurl Htoken
                   |buildUrl slug circleToken e Hurl Hslug Htoken Hpipelines
                   |slug circleToken before p after e Hcfg Hb Hp].
    - unfold getLastSuccessfulBuildRevisionOnBranch, tryCatch, bind at 1, lift.
      rewrite Hurl. now eexists.
    - destruct (requireEnv world "CIRCLE_TOKEN") as [circleToken|e] eqn:Htoken;
        unfold getLastSuccessfulBuildRevisionOnBranch, tryCatch, bind at 1, lift;
        rewrite Hurl; unfold bind at 1; rewrite Htoken; [rewrite Hslug|];
        now eexists.
    - unfold getLastSuccessfulBuildRevisionOnBranch, tryCatch, bind at 1, lift.
      rewrite Hurl. unfold bind at 1. rewrite Htoken. now eexists.
    - unfold getLastSuccessfulBuildRevisionOnBranch, tryCatch, bind at 1, lift.
      rewrite Hurl. unfold bind at 1. rewrite Htoken, Hslug.
      unfold bind at 1, getPipelines, emit. rewrite Hpipelines. now eexists.
    - rewrite (resolver_configured log Hcfg).
      rewrite find_thrown with (e := e) by assumption. now eexists. }
  split; [exact Habsent|].
  intros world' slug circleToken pipelines log' Hcfg Hall.
  destruct Habsent as [l ->].
  rewrite (resolver_configured log' Hcfg).
  now rewrite find_none_green by assumption.
Qed.

Lemma failures_report_absence_witness :
  Failure (sampleWorld secondFails) "main"
  /\ (exists log',
         getLastSuccessfulBuildRevisionOnBranch (sampleWorld secondFails)
           "main" []
         = (Returned None, log'))
  /\ fst (getLastSuccessfulBuildRevisionOnBranch (sampleWorld noWorkflows)
            "main" [])
     = fst (getLastSuccessfulBuildRevisionOnBranch (sampleWorld secondFails)
              "main" []).
Proof.
  assert (Failure (sampleWorld secondFails) "main") as H.
  { apply (@WorkflowsFailed (sampleWorld secondFails) "main" "gh/org/repo"
             "secret" [P1] P2 [P3] (mkError "Network Error")).
    - apply sampleWorld_configured.
    - repeat constructor.
    - reflexivity. }
  pose proof (@failures_report_absence (sampleWorld secondFails) "main" [] H)
    as [Habsent Hsame].
  split; [exact H|]. split; [exact Habsent|].
  apply (Hsame (sampleWorld noWorkflows) "gh/org/repo" "secret" [P1; P2; P3] []).
  - apply sampleWorld_configured.
  - repeat constructor.
Defined.

(** C9: when the workflow request of a pipeline fails, the evaluator
    throws instead of answering; a scan that reaches the pipeline throws
    the same error having made no request for a later pipeline; and the
    resolver logs the failure and returns none. *)
Theorem workflow_fetch_failure_aborts_scan world circleToken p e :
  state p = CirclePipelineState.Created ->
  workflowsResponse world (workflowUrl p) (tokenHeaders circleToken) = Thrown e ->
  (forall log,
      isSuccessfulBuild world (tokenHeaders circleToken) p log
      = (Thrown e,
         (log ++ [HttpGet (workflowUrl p) (tokenHeaders circleToken) []])%list))
  /\ (forall before after log,
         Forall (fun q => verdict world (tokenHeaders circleToken) q
                          = Returned false) before ->
         find (before ++ p :: after)
              (isSuccessfulBuild world (tokenHeaders circleToken)) log
         = (Thrown e,
            (log ++ workflowRequests (tokenHeaders circleToken)
                      (before ++ [p]))%list))
  /\ (forall branch slug before after log,
         configured world branch slug circleToken (before ++ p :: after) ->
         Forall (fun q => verdict world (tokenHeaders circleToken) q
                          = Returned false) before ->
         getLastSuccessfulBuildRevisionOnBranch world branch log
         = (Returned None,
            (log ++ HttpGet (pipelineUrl slug) (tokenHeaders circleToken)
                      [("branch", branch)]
                 :: workflowRequests (tokenHeaders circleToken) (before ++ [p])
                 ++ [failureLog e])%list)).
Proof.
  intros Hs Hr.
  assert (verdict world (tokenHeaders circleToken) p = Thrown e) as Hv.
  { unfold verdict. now rewrite (isSuccessfulBuild_thrown _ _ _ _ Hs Hr). }
  split; [|split].
  - intros log. now apply isSuccessfulBuild_thrown.
  - intros before after log Hb. now apply find_thrown.
  - intros branch slug before after log Hcfg Hb.
    rewrite (resolver_configured log Hcfg).
    rewrite find_thrown with (e := e) by assumption.
    now rewrite <- !app_assoc.
Qed.

Lemma workflow_fetch_failure_aborts_scan_witness :
  getLastSuccessfulBuildRevisionOnBranch (sampleWorld secondFails) "main" []
  = (Returned None,
     [ HttpGet (pipelineUrl "gh/org/repo") (tokenHeaders "secret")
         [("branch", "main")];
       HttpGet (workflowUrl P2) (tokenHeaders "secret") [];
       failureLog (mkError "Network Error") ]).
Proof.
  apply (proj2 (proj2 (@workflow_fetch_failure_aborts_scan
                         (sampleWorld secondFails) "secret" P2
                         (mkError "Network Error") eq_refl eq_refl))
           "main" "gh/org/repo" [P1] [P3] []).
  - apply sampleWorld_configured.
  - repeat constructor.
Defined.

(** ** Witnesses and the defect in the ranking *)

Lemma reruns_plain : plainStatuses reruns.
Proof. repeat constructor. Defined.

Lemma dedupe_one_entry_per_name_of_max_rank_witness :
  plainStatuses reruns
  /\ NoDup (map name (uniqueWorkflows reruns))
  /\ (forall e, In e (uniqueWorkflows reruns) ->
        In e reruns
        /\ forall w, In w reruns -> name w = name e ->
                     (rank (status w) <= rank (status e))%Z).
Proof.
  pose proof (dedupe_one_entry_per_name_of_max_rank reruns) as H.
  split; [exact reruns_plain|].
  split; [exact (proj1 H) | exact (proj1 (proj2 (proj2 H) reruns_plain))].
Defined.

Lemma dedupe_keeps_earliest_of_max_rank_witness :
  plainStatuses reruns
  /\ forall e,
       In e (uniqueWorkflows reruns)
       <-> exists before after,
             reruns = (before ++ e :: after)%list
             /\ (forall w, In w before -> name w = name e ->
                           (rank (status w) < rank (status e))%Z)
             /\ (forall w, In w after -> name w = name e ->
                           (rank (status w) <= rank (status e))%Z).
Proof.
  split; [exact reruns_plain|].
  exact (proj1 (dedupe_keeps_earliest_of_max_rank reruns_plain)).
Defined.

(** The table of the ranking, and its default away from the names of
    [Object.prototype]. *)
Lemma priority_table :
  priority "success" = JS.Num 5 /\ priority "on_hold" = JS.Num 4
  /\ priority "running" = JS.Num 3 /\ priority "not_run" = JS.Num 2
  /\ priority "failed" = JS.Num 1 /\ priority "error" = JS.Num 1
  /\ priority "failing" = JS.Num 1 /\ priority "canceled" = JS.Num 1
  /\ priority "unauthorized" = JS.Num 0.
Proof. repeat split. Qed.

Lemma priority_default s :
  plain s -> recognized s = false -> priority s = JS.Num 0.
Proof.
  intros Hp Hr. rewrite (priority_plain Hp). f_equal.
  unfold recognized in Hr. cbn [existsb CircleWorkflowStatus.all] in Hr.
  unfold CircleWorkflowStatus.Success, CircleWorkflowStatus.OnHold,
    CircleWorkflowStatus.Running, CircleWorkflowStatus.NotRun,
    CircleWorkflowStatus.Failed, CircleWorkflowStatus.Error,
    CircleWorkflowStatus.Failing, CircleWorkflowStatus.Canceled,
    CircleWorkflowStatus.Unauthorized in Hr.
  repeat (apply orb_false_elim in Hr; destruct Hr as [? Hr]).
  unfold rank.
  repeat match goal with H : (s =? _) = false |- _ => rewrite H; clear H end.
  reflexivity.
Qed.

(** C6: a status that names a property of [Object.prototype] is absent
    from the table and yet is not given rank 0: the lookup finds the
    inherited function, [|| 0] keeps it, and no number compares greater
    than it.  A first run with such a status is never replaced by its
    successful rerun, and the pipeline is judged not green. *)
Theorem inherited_status_not_ranked_zero :
  recognized (status stale) = false
  /\ rank (status stale) = 0%Z
  /\ priority (status stale) = JS.native "Object"
  /\ priority (status stale) <> JS.Num 0
  /\ shouldPreferWorkflow rerun stale = false
  /\ uniqueWorkflows [stale; rerun] = [stale]
  /\ allPassed [stale; rerun] = false.
Proof. repeat split. discriminate. Qed.

(** C4: the entry kept under a name is not always of the highest rank
    among the workflows of that name.  A first run whose status names a
    property of [Object.prototype] ranks 0 and its successful rerun ranks
    5, yet the first run is the entry kept: the lookup of its priority
    finds the inherited function, and no number compares greater than
    it. *)
Theorem max_rank_entry_lost_to_inherited_status :
  In stale [stale; rerun] /\ In rerun [stale; rerun]
  /\ name rerun = name stale
  /\ (rank (status rerun) > rank (status stale))%Z
  /\ uniqueWorkflows [stale; rerun] = [stale]
  /\ ~ (forall ws e w,
          In e (uniqueWorkflows ws) -> In w ws -> name w = name e ->
          (rank (status w) <= rank (status e))%Z).
Proof.
  assert (In stale (uniqueWorkflows [stale; rerun])) as Hkept
    by (left; reflexivity).
  assert (In rerun [stale; rerun]) as Hin by (right; left; reflexivity).
  repeat split; auto.
  - left. reflexivity.
  - intros H. specialize (H _ _ _ Hkept Hin eq_refl).
    change (5 <= 0)%Z in H. lia.
Qed.

(** C5: of two workflows of one name and of equal rank the later one can
    be the entry kept.  Two runs whose statuses name properties of
    [Object.prototype] both rank 0, but their priorities are the inherited
    functions, which [>] compares as strings: the later run is preferred
    and replaces the earlier one. *)
Theorem equal_rank_later_run_kept_on_inherited_status :
  name staleAgain = name stale
  /\ rank (status stale) = rank (status staleAgain)
  /\ shouldPreferWorkflow staleAgain stale = true
  /\ dedupeStep (workflowMap [stale]) staleAgain <> workflowMap [stale]
  /\ uniqueWorkflows [stale; staleAgain] = [staleAgain]
  /\ ~ (forall ws before e after,
          ws = (before ++ e :: after)%list ->
          (forall w, In w before -> name w = name e ->
                     (rank (status w) < rank (status e))%Z) ->
          (forall w, In w after -> name w = name e ->
                     (rank (status w) <= rank (status e))%Z) ->
          In e (uniqueWorkflows ws)).
Proof.
  repeat split; try discriminate.
  intros H.
  specialize (H [stale; staleAgain] [] stale [staleAgain] eq_refl).
  assert (In stale (uniqueWorkflows [stale; staleAgain])) as Hin.
  { apply H.
    - intros w [].
    - intros w [<-|[]] _. change (0 <= 0)%Z. lia. }
  destruct Hin as [Heq|[]]. discriminate Heq.
Qed.

(** With an absent status that is ranked 0 the rerun replaces the first
    run and the pipeline is green. *)
Example unknown_status_replaced_by_rerun :
  let unknown := mkWorkflow "w1" "build" "queued" in
  priority (status unknown) = JS.Num 0
  /\ uniqueWorkflows [unknown; rerun] = [rerun]
  /\ allPassed [unknown; rerun] = true.
Proof. repeat split. Qed.

(** ** The pattern on the build URL: what it captures *)

Lemma slash_not_terminator c :
  RegExp.lineTerminator c = true -> (c =? "/")%char = false.
Proof.
  intros H. destruct (Ascii.eqb_spec c "/") as [->|]; [discriminate | reflexivity].
Qed.

Lemma star_ext (R : Type) (k1 k2 : RegExp.Cont R) :
  (forall u cap, k1 u cap = k2 u cap) ->
  forall t cap, RegExp.star t cap k1 = RegExp.star t cap k2.
Proof.
  intros Hk t cap. induction t as [|c t IH]; cbn [RegExp.star].
  - apply Hk.
  - rewrite IH, Hk. reflexivity.
Qed.

(** One more run and slash in front of a continuation that is known. *)
Lemma star_slash_step (R : Type) (F : string -> R) j (K : RegExp.Cont R) :
  (forall t cap, K t cap = slashRuns F j t) ->
  forall t cap,
    RegExp.star t cap (fun u cap' => RegExp.char "/" u cap' K)
    = slashRuns F (S j) t.
Proof.
  intros HK t cap. induction t as [|c t IH].
  - reflexivity.
  - cbn [RegExp.star]. unfold slashRuns. cbn [slashes afterLastSlash].
    destruct (RegExp.lineTerminator c) eqn:LT.
    + cbn [RegExp.char]. now rewrite (slash_not_terminator _ LT).
    + rewrite IH. unfold slashRuns at 1.
      destruct (Nat.leb_spec (S j) (slashes t)) as [Hle|Hgt].
      * destruct (Nat.leb_spec (S j) ((if (c =? "/")%char then 1 else 0)
                                      + slashes t)) as [_|Hgt]; [|lia].
        destruct (Nat.ltb_spec 0 (slashes t)); [reflexivity | lia].
      * cbn [RegExp.char]. destruct (c =? "/")%char.
        -- rewrite HK. unfold slashRuns. destruct j as [|j'].
           ++ cbn [Nat.leb Nat.add].
              destruct (Nat.ltb_spec 0 (slashes t)); [lia | reflexivity].
           ++ change (1 + slashes t)%nat with (S (slashes t)).
              change (S (S j') <=? S (slashes t))%nat
                with (S j' <=? slashes t)%nat.
              destruct (Nat.leb_spec (S j') (slashes t)); [|reflexivity].
              destruct (Nat.ltb_spec 0 (slashes t)); [reflexivity | lia].
        -- destruct (Nat.leb_spec (S j) (0 + slashes t)); [lia | reflexivity].
Qed.

Lemma length_append s t :
  String.length (s ++ t) = (String.length s + String.length t)%nat.
Proof. induction s as [|c s IH]; simpl; auto. Qed.

Lemma consumed_append g rest : RegExp.consumed (g ++ rest) rest = g.
Proof.
  unfold RegExp.consumed. rewrite length_append.
  replace (String.length g + String.length rest - String.length rest)%nat
    with (String.length g) by lia.
  induction g as [|c g IH]; simpl.
  - now destruct rest.
  - now rewrite IH.
Qed.

Lemma append_assoc (a b c : string) : ((a ++ b) ++ c = a ++ (b ++ c))%string.
Proof. induction a as [|x a IH]; simpl; [reflexivity | now rewrite IH]. Qed.

Lemma count_append c s t : count c (s ++ t) = (count c s + count c t)%nat.
Proof. induction s as [|x s IH]; simpl; [reflexivity | rewrite IH; lia]. Qed.

Lemma slashes_le_count t : (slashes t <= count "/" t)%nat.
Proof.
  induction t as [|c t IH]; simpl; auto.
  destruct (RegExp.lineTerminator c); lia.
Qed.

Lemma slashes_singleLine g t :
  singleLine g = true -> slashes (g ++ t) = (count "/" g + slashes t)%nat.
Proof.
  induction g as [|c g IH]; simpl; auto.
  intros H. apply andb_true_iff in H. destruct H as [Hc Hg].
  apply negb_true_iff in Hc. rewrite Hc, (IH Hg). lia.
Qed.

Lemma afterLastSlash_singleLine g t :
  singleLine g = true -> (0 < slashes t)%nat ->
  afterLastSlash (g ++ t) = afterLastSlash t.
Proof.
  induction g as [|c g IH]; simpl; auto.
  intros H Ht. apply andb_true_iff in H. destruct H as [Hc Hg].
  apply negb_true_iff in Hc. rewrite Hc, (slashes_singleLine g t Hg).
  destruct (Nat.ltb_spec 0 (count "/" g + slashes t)); [auto | lia].
Qed.

(** The first line splits at its last slash. *)
Lemma afterLastSlash_split t :
  (1 <= slashes t)%nat ->
  exists g,
    t = g ++ String "/" (afterLastSlash t)
    /\ singleLine g = true
    /\ count "/" g = (slashes t - 1)%nat
    /\ slashes (afterLastSlash t) = 0%nat.
Proof.
  induction t as [|c t IH]; simpl; [lia|].
  destruct (RegExp.lineTerminator c) eqn:LT; [lia|].
  destruct (Nat.ltb_spec 0 (slashes t)) as [Hpos|Hzero].
  - intros _. destruct (IH Hpos) as (g & Ht & Hg & Hc & Hs).
    exists (String c g). repeat split; auto.
    + simpl. now rewrite <- Ht.
    + simpl. now rewrite LT, Hg.
    + simpl. rewrite Hc. destruct (c =? "/")%char; lia.
  - destruct (Ascii.eqb_spec c "/") as [->|]; [|intros; lia].
    intros _. exists EmptyString. repeat split; simpl; auto; lia.
Qed.

Lemma chars_complete (R : Type) s p t cap (k : RegExp.Cont R) :
  RegExp.matcher (RegExp.chars s p) (s ++ t) cap k = RegExp.matcher p t cap k.
Proof.
  induction s as [|c s IH]; auto.
  cbn [RegExp.chars RegExp.matcher RegExp.char append].
  now rewrite Ascii.eqb_refl.
Qed.

Lemma chars_sound (R : Type) s p input cap (k : RegExp.Cont R) r :
  RegExp.matcher (RegExp.chars s p) input cap k = Some r ->
  exists t, input = s ++ t /\ RegExp.matcher p t cap k = Some r.
Proof.
  revert input. induction s as [|c s IH]; intros input.
  - intros H. now exists input.
  - destruct input as [|x rest];
      cbn [RegExp.chars RegExp.matcher RegExp.char];
      [intros HH; discriminate HH|].
    destruct (x =? c)%char eqn:E; [|intros HH; discriminate HH].
    apply Ascii.eqb_eq in E. subst x.
    intros H. destruct (IH _ H) as (t & -> & Ht). now exists t.
Qed.

Lemma chars_first_char (R : Type) c s p x rest cap (k : RegExp.Cont R) :
  (x =? c)%char = false ->
  RegExp.matcher (RegExp.chars (String c s) p) (String x rest) cap k = None.
Proof.
  intros H. cbn [RegExp.chars RegExp.matcher RegExp.char]. now rewrite H.
Qed.

Lemma exec_unfold p input :
  RegExp.exec p input
  = match RegExp.matcher p input None (fun _ cap => Some cap) with
    | Some cap => Some cap
    | None =>
        match input with
        | String _ rest => RegExp.exec p rest
        | EmptyString => None
        end
    end.
Proof. destruct input; reflexivity. Qed.

Lemma exec_sound p input cap :
  RegExp.exec p input = Some cap ->
  exists pre suf,
    input = pre ++ suf
    /\ RegExp.matcher p suf None (fun _ c => Some c) = Some cap.
Proof.
  induction input as [|x input IH]; rewrite exec_unfold.
  - destruct (RegExp.matcher p "" None _) eqn:E; [|intros HH; discriminate HH].
    intros [= <-]. now exists "", "".
  - destruct (RegExp.matcher p (String x input) None _) eqn:E.
    + intros [= <-]. now exists "", (String x input).
    + intros H. destruct (IH H) as (pre & suf & -> & Hm).
      now exists (String x pre), suf.
Qed.

(** After the characters of the host, the group and the slash that
    closes it are three runs, and the capture is what was read before the
    last slash of the line. *)
Lemma group_capture t0 :
  RegExp.matcher
    (RegExp.Seq
       (RegExp.Group
          (RegExp.Seq RegExp.AnyStar
             (RegExp.Seq (RegExp.Char "/")
                (RegExp.Seq RegExp.AnyStar
                   (RegExp.Seq (RegExp.Char "/") RegExp.AnyStar)))))
       (RegExp.Char "/"))
    t0 None (fun _ cap => Some cap)
  = slashRuns (fun t6 => Some (RegExp.consumed t0 (String "/" t6))) 3 t0.
Proof.
  cbn [RegExp.matcher].
  apply star_slash_step. intros t cap.
  apply star_slash_step. intros t' cap'.
  rewrite star_ext with
    (k2 := fun u c => RegExp.char "/" u c
                        (fun t6 _ => Some (Some (RegExp.consumed t0 (String "/" t6))))).
  - apply star_slash_step. reflexivity.
  - intros u c. destruct u as [|x u]; cbn [RegExp.char]; [reflexivity|].
    destruct (Ascii.eqb_spec x "/") as [->|]; reflexivity.
Qed.

Lemma slug_match_here t0 :
  RegExp.matcher slugPattern ("circleci.com/" ++ t0) None (fun _ cap => Some cap)
  = slashRuns (fun t6 => Some (RegExp.consumed t0 (String "/" t6))) 3 t0.
Proof. unfold slugPattern. rewrite chars_complete. apply group_capture. Qed.

Lemma slashRuns_capture t0 cap :
  slashRuns (fun t6 => Some (RegExp.consumed t0 (String "/" t6))) 3 t0 = Some cap ->
  exists g n,
    cap = Some g /\ t0 = g ++ String "/" n /\ singleLine g = true
    /\ (2 <= count "/" g)%nat /\ slashes n = 0%nat.
Proof.
  unfold slashRuns. destruct (Nat.leb_spec 3 (slashes t0)) as [H3|]; [|intros HH; discriminate HH].
  destruct (afterLastSlash_split t0) as (g & Ht & Hg & Hc & Hn); [lia|].
  intros [= <-]. exists g, (afterLastSlash t0). repeat split; auto.
  - f_equal. rewrite Ht at 1. apply consumed_append.
  - lia.
Qed.

(** Whatever the pattern captures is a single line with at least two
    slashes, found after the host and before the last slash of its line. *)
Lemma slugAndBuildNumber_sound buildUrl g :
  slugAndBuildNumber buildUrl = Some g ->
  exists pre n,
    buildUrl = pre ++ "circleci.com/" ++ g ++ String "/" n
    /\ singleLine g = true /\ (2 <= count "/" g)%nat /\ slashes n = 0%nat.
Proof.
  unfold slugAndBuildNumber.
  destruct (RegExp.exec slugPattern buildUrl) as [[c|]|] eqn:E; try (intros HH; discriminate HH).
  intros [= ->].
  destruct (exec_sound _ _ E) as (pre & suf & -> & Hm).
  unfold slugPattern in Hm.
  destruct (chars_sound _ _ _ _ _ Hm) as (t0 & -> & Hg).
  rewrite group_capture in Hg.
  destruct (slashRuns_capture _ Hg) as (g' & n & [= <-] & -> & H1 & H2 & H3).
  now exists pre, n.
Qed.

Lemma exec_skip pre rest :
  count "c" pre = 0%nat ->
  RegExp.exec slugPattern (pre ++ rest) = RegExp.exec slugPattern rest.
Proof.
  induction pre as [|x pre IH]; simpl count; auto.
  destruct (x =? "c")%char eqn:E; [discriminate|]. intros H.
  change (String x pre ++ rest) with (String x (pre ++ rest)).
  rewrite exec_unfold. unfold slugPattern at 1.
  rewrite chars_first_char by assumption. now apply IH.
Qed.

Lemma slugAndBuildNumber_complete pre g n :
  count "c" pre = 0%nat -> singleLine g = true ->
  (2 <= count "/" g)%nat -> count "/" n = 0%nat ->
  slugAndBuildNumber (pre ++ "circleci.com/" ++ g ++ String "/" n) = Some g.
Proof.
  intros Hpre Hg Hc Hn. unfold slugAndBuildNumber.
  rewrite (exec_skip _ _ Hpre), exec_unfold, slug_match_here.
  assert (slashes n = 0%nat) as Hsn
    by (pose proof (slashes_le_count n); lia).
  assert (slashes (String "/" n) = 1%nat) as Hs1
    by (cbn [slashes]; rewrite Hsn; reflexivity).
  unfold slashRuns.
  rewrite (slashes_singleLine g (String "/" n) Hg), Hs1.
  destruct (Nat.leb_spec 3 (count "/" g + 1)); [|lia].
  rewrite (afterLastSlash_singleLine g (String "/" n) Hg) by lia.
  cbn [afterLastSlash]. rewrite Hsn. cbn.
  now rewrite consumed_append.
Qed.

(** ** The preference as an order *)

Lemma ltb_lt s t :
  (s <? t)%string = true <-> OrderedTypeEx.String_as_OT.lt s t.
Proof.
  rewrite <- OrderedTypeEx.String_as_OT.cmp_lt.
  unfold String.ltb, OrderedTypeEx.String_as_OT.cmp.
  destruct (String.compare s t); split; congruence.
Qed.

Lemma gt_irrefl v : JS.gt v v = false.
Proof.
  destruct v as [n| |s]; cbn; auto.
  - rewrite Z.gtb_ltb. apply Z.ltb_irrefl.
  - destruct (s <? s)%string eqn:E; auto.
    apply ltb_lt in E.
    apply OrderedTypeEx.String_as_OT.lt_not_eq in E.
    exfalso. apply E. reflexivity.
Qed.

Lemma gt_trans a b c :
  JS.gt a b = true -> JS.gt b c = true -> JS.gt a c = true.
Proof.
  destruct a as [x| |s], b as [y| |t], c as [z| |u]; cbn; try discriminate.
  - rewrite !Z.gtb_ltb, !Z.ltb_lt. lia.
  - rewrite !ltb_lt. intros H1 H2.
    exact (OrderedTypeEx.String_as_OT.lt_trans u t s H2 H1).
Qed.

Lemma gt_asym a b : JS.gt a b = true -> JS.gt b a = false.
Proof.
  intros H. destruct (JS.gt b a) eqn:E; auto.
  pose proof (gt_trans _ _ _ H E) as Hc. rewrite gt_irrefl in Hc. discriminate.
Qed.

Lemma get_dedupeStep_same m w :
  Map.get (dedupeStep m w) (name w)
  = match Map.get m (name w) with
    | None => Some w
    | Some existing =>
        if shouldPreferWorkflow w existing then Some w else Some existing
    end.
Proof.
  unfold dedupeStep. destruct (Map.get m (name w)) as [ex|] eqn:E.
  - destruct (shouldPreferWorkflow w ex); auto using get_set_same.
  - apply get_set_same.
Qed.

(** Whatever the statuses, no workflow of the input is preferred to the
    entry kept under its name. *)
Lemma entry_unbeaten ws :
  forall n e, Map.get (workflowMap ws) n = Some e ->
  forall w, In w ws -> name w = n -> shouldPreferWorkflow w e = false.
Proof.
  induction ws as [|w0 ws IH] using rev_ind; intros n e; [discriminate|].
  rewrite workflowMap_snoc.
  destruct (String.eqb_spec (name w0) n) as [<-|Hne].
  - rewrite get_dedupeStep_same.
    destruct (Map.get (workflowMap ws) (name w0)) as [ex|] eqn:E.
    + destruct (shouldPreferWorkflow w0 ex) eqn:P; intros [= <-] w Hin Hn;
        apply in_app_or in Hin; destruct Hin as [Hin|[<-|[]]].
      * destruct (shouldPreferWorkflow w w0) eqn:Q; auto.
        pose proof (gt_trans _ _ _ Q P) as Hc.
        fold (shouldPreferWorkflow w ex) in Hc.
        now rewrite (IH _ _ E w Hin Hn) in Hc.
      * apply gt_irrefl.
      * now apply (IH _ _ E).
      * exact P.
    + intros [= <-] w Hin Hn.
      apply in_app_or in Hin. destruct Hin as [Hin|[<-|[]]].
      * apply get_workflowMap_None in E. exfalso. apply E.
        rewrite <- Hn. now apply in_map.
      * apply gt_irrefl.
  - rewrite get_dedupeStep_other by assumption. intros E w Hin Hn.
    apply in_app_or in Hin. destruct Hin as [Hin|[<-|[]]].
    + now apply (IH _ _ E).
    + contradiction.
Qed.

(** The entry of a name is decided by the workflows of that name alone. *)
Lemma get_workflowMap_filter ws n :
  Map.get (workflowMap ws) n
  = Map.get (workflowMap (filter (fun w => name w =? n) ws)) n.
Proof.
  induction ws as [|w0 ws IH] using rev_ind; [reflexivity|].
  rewrite filter_app, workflowMap_snoc. cbn [filter].
  destruct (String.eqb_spec (name w0) n) as [<-|Hne].
  - now rewrite workflowMap_snoc, !get_dedupeStep_same, IH.
  - rewrite app_nil_r. now rewrite get_dedupeStep_other.
Qed.

Lemma length_distinctNames l : (length (distinctNames l) <= length l)%nat.
Proof.
  induction l as [|x l IH]; simpl; auto.
  pose proof (filter_length_le (fun y => negb (y =? x)) (distinctNames l)).
  lia.
Qed.

Lemma passed_rank w : passed w = true <-> (4 <= rank (status w))%Z.
Proof.
  unfold passed, rank. cbn [existsb].
  unfold CircleWorkflowStatus.Success, CircleWorkflowStatus.OnHold.
  destruct (status w =? "success"); [split; [lia | reflexivity]|].
  destruct (status w =? "on_hold"); [split; [lia | reflexivity]|].
  cbn [orb]. split; [discriminate|].
  repeat destruct (status w =? _); lia.
Qed.

(** A green verdict needs a passed run under every name. *)
Lemma allPassed_names ws :
  allPassed ws = true ->
  ws <> []
  /\ forall w, In w ws ->
       exists w', In w' ws /\ name w' = name w /\ passed w' = true.
Proof.
  intros H. apply allPassed_spec in H. destruct H as [Hne Hall]. split.
  - intros ->. now apply Hne.
  - intros w Hw.
    assert (In (name w) (map name (uniqueWorkflows ws))) as Hn.
    { rewrite names_uniqueWorkflows, keys_workflowMap.
      apply In_distinctNames. now apply in_map. }
    apply in_map_iff in Hn. destruct Hn as (e & He & Hin).
    exists e. repeat split; auto using uniqueWorkflows_In.
    unfold passed. cbn [existsb]. rewrite orb_false_r, orb_true_iff.
    rewrite !String.eqb_eq. auto.
Qed.

(** With statuses whose priority is a number the condition is enough. *)
Lemma names_allPassed ws :
  plainStatuses ws -> ws <> [] ->
  (forall w, In w ws ->
     exists w', In w' ws /\ name w' = name w /\ passed w' = true) ->
  allPassed ws = true.
Proof.
  intros Hplain Hne Hall. apply allPassed_spec. split.
  - intros Hu. apply Hne. apply (f_equal (map name)) in Hu.
    rewrite names_uniqueWorkflows, keys_workflowMap in Hu.
    destruct ws as [|w ws]; [reflexivity | discriminate].
  - intros e He.
    destruct (Hall e (uniqueWorkflows_In _ _ He)) as (w' & Hw' & Hn & Hp).
    apply passed_rank in Hp.
    pose proof (entry_max_rank Hplain e w' He Hw' Hn) as Hle.
    assert (passed e = true) as Hpe by (apply passed_rank; lia).
    unfold passed in Hpe. cbn [existsb] in Hpe.
    rewrite orb_false_r, orb_true_iff, !String.eqb_eq in Hpe. exact Hpe.
Qed.

(** ** Further properties of the preference and the deduplication *)

(** X1: [shouldPreferWorkflow] is a strict order on workflows that looks
    at the status only: two workflows of one status are never preferred
    to each other, a preference is never mutual, and preferences chain.
    This holds for every status string. *)
Theorem shouldPreferWorkflow_strict_order :
  (forall a b, status a = status b -> shouldPreferWorkflow a b = false)
  /\ (forall a b, shouldPreferWorkflow a b = true ->
                  shouldPreferWorkflow b a = false)
  /\ (forall a b c, shouldPreferWorkflow a b = true ->
                    shouldPreferWorkflow b c = true ->
                    shouldPreferWorkflow a c = true).
Proof.
  unfold shouldPreferWorkflow. split; [|split].
  - intros a b ->. apply gt_irrefl.
  - intros a b. apply gt_asym.
  - intros a b c. apply gt_trans.
Qed.

Lemma shouldPreferWorkflow_strict_order_witness :
  shouldPreferWorkflow rerun (mkWorkflow "w0" "build" "failed") = true.
Proof.
  apply (proj2 (proj2 shouldPreferWorkflow_strict_order)
           rerun (mkWorkflow "w5" "build" "running")
           (mkWorkflow "w0" "build" "failed"));
    reflexivity.
Defined.

(** X2: for every input, whatever its statuses, no workflow of the input
    is preferred to the entry that the deduplication keeps under its
    name. *)
Theorem kept_entry_is_never_beaten ws e w :
  In e (uniqueWorkflows ws) -> In w ws -> name w = name e ->
  shouldPreferWorkflow w e = false.
Proof.
  intros He Hw Hn. apply In_uniqueWorkflows in He.
  exact (entry_unbeaten ws He w Hw Hn).
Qed.

Lemma kept_entry_is_never_beaten_witness :
  shouldPreferWorkflow rerun stale = false.
Proof.
  apply (@kept_entry_is_never_beaten [stale; rerun] stale rerun).
  - left. reflexivity.
  - right. left. reflexivity.
  - reflexivity.
Defined.

(** X3: the entry kept under a name is the one kept when the workflows of
    that name are deduplicated on their own; workflows of other names do
    not influence it. *)
Theorem dedupe_by_name_is_local ws e :
  In e (uniqueWorkflows ws)
  <-> In e (uniqueWorkflows (filter (fun w => name w =? name e) ws)).
Proof. now rewrite !In_uniqueWorkflows, <- get_workflowMap_filter. Qed.

(** X4: the deduplication returns its input unchanged exactly when the
    names of the input are pairwise distinct, and it never returns more
    entries than it was given. *)
Theorem dedupe_fixed_iff_distinct_names ws :
  (uniqueWorkflows ws = ws <-> NoDup (map name ws))
  /\ (length (uniqueWorkflows ws) <= length ws)%nat.
Proof.
  split; [split|].
  - intros H. rewrite <- H, names_uniqueWorkflows.
    apply NoDup_keys_workflowMap.
  - apply uniqueWorkflows_distinct.
  - rewrite <- (length_map name (uniqueWorkflows ws)).
    rewrite names_uniqueWorkflows, keys_workflowMap.
    rewrite <- (length_map name ws). apply length_distinctNames.
Qed.

(** X5: whatever the statuses, a workflow list is judged green only if it
    is not empty and every workflow name in it has a run with status
    [success] or [on_hold]. *)
Theorem green_needs_a_pass_per_name ws :
  allPassed ws = true ->
  ws <> []
  /\ forall w, In w ws ->
       exists w', In w' ws /\ name w' = name w /\ passed w' = true.
Proof. apply allPassed_names. Qed.

Lemma green_needs_a_pass_per_name_witness :
  reruns <> []
  /\ forall w, In w reruns ->
       exists w', In w' reruns /\ name w' = name w /\ passed w' = true.
Proof. apply (@green_needs_a_pass_per_name reruns). reflexivity. Defined.

(** X6: with statuses whose priority is a number, a workflow list is
    judged green exactly when it is not empty and every workflow name in
    it has at least one run with status [success] or [on_hold]. *)
Theorem green_iff_a_pass_per_name ws :
  plainStatuses ws ->
  (allPassed ws = true
   <-> ws <> []
       /\ forall w, In w ws ->
            exists w', In w' ws /\ name w' = name w /\ passed w' = true).
Proof.
  intros Hplain. split.
  - apply allPassed_names.
  - intros [Hne Hall]. now apply names_allPassed.
Qed.

Lemma green_iff_a_pass_per_name_witness :
  allPassed reruns = true
  <-> reruns <> []
      /\ forall w, In w reruns ->
           exists w', In w' reruns /\ name w' = name w /\ passed w' = true.
Proof. exact (@green_iff_a_pass_per_name reruns reruns_plain). Defined.

(** X7: with statuses whose priority is a number, the verdict does not
    depend on the order in which the workflows are listed. *)
Theorem verdict_ignores_workflow_order ws ws' :
  plainStatuses ws -> Permutation ws ws' -> allPassed ws' = allPassed ws.
Proof.
  intros Hplain Hperm.
  assert (plainStatuses ws') as Hplain'
    by (unfold plainStatuses in *; now rewrite <- Hperm).
  assert (forall a b, plainStatuses a -> plainStatuses b -> Permutation a b ->
                      allPassed a = true -> allPassed b = true) as Hmono.
  { intros a b Ha Hb Hab Hgreen.
    destruct (allPassed_names _ Hgreen) as [Hne Hall].
    apply names_allPassed; auto.
    - intros ->. apply Hne. now apply Permutation_nil.
    - intros w Hw. apply (Permutation_in _ (Permutation_sym Hab)) in Hw.
      destruct (Hall w Hw) as (w' & Hw' & Hn & Hp).
      exists w'. repeat split; auto.
      now apply (Permutation_in _ Hab). }
  destruct (allPassed ws) eqn:E.
  - now apply (Hmono ws ws').
  - destruct (allPassed ws') eqn:E'; auto.
    rewrite (Hmono ws' ws) in E; auto using Permutation_sym.
Qed.

Lemma verdict_ignores_workflow_order_witness :
  allPassed (rev reruns) = allPassed reruns.
Proof.
  exact (@verdict_ignores_workflow_order reruns (rev reruns) reruns_plain
           (Permutation_rev reruns)).
Defined.

(** X8: with statuses whose priority is a number, a green workflow list
    stays green when one more run is listed anywhere in it, provided the
    run passed or its name is already in the list: a failed rerun of a
    workflow that has passed does not change the verdict. *)
Theorem green_kept_by_further_runs before w after :
  plainStatuses (before ++ w :: after) ->
  allPassed (before ++ after) = true ->
  passed w = true \/ In (name w) (map name (before ++ after)) ->
  allPassed (before ++ w :: after) = true.
Proof.
  intros Hplain Hgreen Hw.
  destruct (allPassed_names _ Hgreen) as [_ Hall].
  assert (forall x, In x (before ++ after) -> In x (before ++ w :: after)) as Hsub.
  { intros x Hx. apply in_app_or in Hx. apply in_or_app.
    destruct Hx; [now left | now right; right]. }
  apply names_allPassed; auto.
  - now destruct before.
  - intros x Hx.
    assert (x = w \/ In x (before ++ after)) as [->|Hin].
    { apply in_app_or in Hx. destruct Hx as [Hx|[<-|Hx]]; auto.
      - right. apply in_or_app. now left.
      - right. apply in_or_app. now right. }
    + destruct Hw as [Hp|Hn].
      * exists w. repeat split; auto using in_elt.
      * apply in_map_iff in Hn. destruct Hn as (y & Hy & Hin).
        destruct (Hall y Hin) as (w' & Hw' & Hn' & Hp).
        exists w'. repeat split; auto. congruence.
    + destruct (Hall x Hin) as (w' & Hw' & Hn' & Hp).
      exists w'. repeat split; auto.
Qed.

Lemma green_kept_by_further_runs_witness :
  allPassed ([mkWorkflow "w3" "build" "success"]
             ++ mkWorkflow "w1" "build" "failed"
             :: [mkWorkflow "w2" "test" "on_hold"]) = true.
Proof.
  apply (@green_kept_by_further_runs
           [mkWorkflow "w3" "build" "success"]
           (mkWorkflow "w1" "build" "failed")
           [mkWorkflow "w2" "test" "on_hold"]).
  - repeat constructor.
  - reflexivity.
  - right. left. reflexivity.
Defined.

(** ** Further properties of the scan and the resolver *)

Lemma find_accepts (I : Type) (items : list I) (cb : I -> Async bool) :
  forall log x log',
    find items cb log = (Returned (Some x), log') ->
    exists before after mid,
      items = (before ++ x :: after)%list
      /\ cb x mid = (Returned true, log')
      /\ Forall (fun y => exists l0 l1, cb y l0 = (Returned false, l1)) before.
Proof.
  induction items as [|a items IH]; intros log x log'; cbn [find].
  - unfold ret. discriminate.
  - unfold bind. destruct (cb a log) as [[[|]|e] l1] eqn:E.
    + unfold ret. intros [= <- <-]. exists [], items, log. auto.
    + intros H. destruct (IH _ _ _ H) as (before & after & mid & -> & Hx & Hb).
      exists (a :: before), after, mid. repeat split; auto.
      constructor; auto. now exists log, l1.
    + discriminate.
Qed.

(** X9: for any callback, when [find] returns an element it is an element
    of the list, the callback returned true on it and false on every
    element before it, and nothing happens after that call. *)
Theorem find_returns_first_accepted (I : Type) (items : list I)
    (cb : I -> Async bool) log x log' :
  find items cb log = (Returned (Some x), log') ->
  exists before after mid,
    items = (before ++ x :: after)%list
    /\ cb x mid = (Returned true, log')
    /\ Forall (fun y => exists l0 l1, cb y l0 = (Returned false, l1)) before.
Proof. apply find_accepts. Qed.

Lemma find_returns_first_accepted_witness :
  exists before after mid,
    [P1; P2; P3] = (before ++ P2 :: after)%list
    /\ isSuccessfulBuild (sampleWorld allGreen) (tokenHeaders "secret") P2 mid
       = (Returned true, [HttpGet (workflowUrl P2) (tokenHeaders "secret") []])
    /\ Forall (fun y => exists l0 l1,
                 isSuccessfulBuild (sampleWorld allGreen)
                   (tokenHeaders "secret") y l0 = (Returned false, l1)) before.
Proof.
  apply (@find_returns_first_accepted _ [P1; P2; P3]
           (isSuccessfulBuild (sampleWorld allGreen) (tokenHeaders "secret"))
           [] P2).
  reflexivity.
Defined.

(** X10: with a callback that only computes a boolean, [find] is the
    [find] of lists: the first element that satisfies the test, or none,
    and no effect. *)
Theorem find_pure_is_list_find (I : Type) (f : I -> bool) (items : list I) log :
  find items (fun x => ret (f x)) log = (Returned (List.find f items), log).
Proof.
  induction items as [|a items IH]; cbn [find List.find]; auto.
  unfold bind, ret at 1. destruct (f a); auto.
Qed.

Lemma find_trace world headers pipelines :
  forall log,
  exists k,
    (k <= length pipelines)%nat
    /\ snd (find pipelines (isSuccessfulBuild world headers) log)
       = (log ++ workflowRequests headers (firstn k pipelines))%list.
Proof.
  induction pipelines as [|p rest IH]; intros log.
  - exists 0%nat. split; auto. simpl. now rewrite app_nil_r.
  - rewrite find_cons. destruct (verdict world headers p) as [[|]|e].
    + exists 1%nat. split; [simpl; lia|]. reflexivity.
    + destruct (IH (log ++ workflowRequests headers [p])%list) as (k & Hk & Hs).
      exists (S k). split; [simpl; lia|].
      rewrite Hs, firstn_cons, (workflowRequests_cons headers p (firstn k rest)).
      now rewrite app_assoc.
    + exists 1%nat. split; [simpl; lia|]. reflexivity.
Qed.

Section ResolverEffects.
Variable world : World.
Variable branch : string.

Lemma resolver_no_url e log :
  requireEnv world "CIRCLE_BUILD_URL" = Thrown e ->
  getLastSuccessfulBuildRevisionOnBranch world branch log
  = (Returned None, (log ++ [failureLog e])%list).
Proof.
  intros Hurl.
  unfold getLastSuccessfulBuildRevisionOnBranch, tryCatch, bind at 1, lift.
  now rewrite Hurl.
Qed.

Lemma resolver_no_token buildUrl e log :
  requireEnv world "CIRCLE_BUILD_URL" = Returned buildUrl ->
  requireEnv world "CIRCLE_TOKEN" = Thrown e ->
  getLastSuccessfulBuildRevisionOnBranch world branch log
  = (Returned None, (log ++ [failureLog e])%list).
Proof.
  intros Hurl Htoken.
  unfold getLastSuccessfulBuildRevisionOnBranch, tryCatch, bind at 1, lift.
  rewrite Hurl. unfold bind at 1. now rewrite Htoken.
Qed.

Lemma resolver_no_slug buildUrl circleToken log :
  requireEnv world "CIRCLE_BUILD_URL" = Returned buildUrl ->
  truthySlug (slugCapture world buildUrl) = None ->
  requireEnv world "CIRCLE_TOKEN" = Returned circleToken ->
  getLastSuccessfulBuildRevisionOnBranch world branch log = (Returned None, log).
Proof.
  intros Hurl Hslug Htoken.
  unfold getLastSuccessfulBuildRevisionOnBranch, tryCatch, bind at 1, lift.
  rewrite Hurl. unfold bind at 1. now rewrite Htoken, Hslug.
Qed.

Lemma resolver_pipelines_failed buildUrl slug circleToken e log :
  requireEnv world "CIRCLE_BUILD_URL" = Returned buildUrl ->
  truthySlug (slugCapture world buildUrl) = Some slug ->
  requireEnv world "CIRCLE_TOKEN" = Returned circleToken ->
  pipelinesResponse world (pipelineUrl slug) (tokenHeaders circleToken)
    [("branch", branch)] = Thrown e ->
  getLastSuccessfulBuildRevisionOnBranch world branch log
  = (Returned None,
     (log ++ [HttpGet (pipelineUrl slug) (tokenHeaders circleToken)
                [("branch", branch)];
              failureLog e])%list).
Proof.
  intros Hurl Hslug Htoken Hp. unfold tokenHeaders in *.
  unfold getLastSuccessfulBuildRevisionOnBranch, tryCatch, bind at 1, lift.
  rewrite Hurl. unfold bind at 1. rewrite Htoken, Hslug.
  unfold bind at 1, getPipelines, emit. rewrite Hp.
  unfold bind, console_log, emit, ret. now rewrite <- app_assoc.
Qed.

Lemma resolver_trace slug circleToken pipelines log :
  configured world branch slug circleToken pipelines ->
  exists k r tail,
    (k <= length pipelines)%nat
    /\ getLastSuccessfulBuildRevisionOnBranch world branch log
       = (Returned r,
          (log ++ HttpGet (pipelineUrl slug) (tokenHeaders circleToken)
                    [("branch", branch)]
               :: workflowRequests (tokenHeaders circleToken)
                    (firstn k pipelines) ++ tail)%list)
    /\ (tail = [] \/ (r = None /\ exists e, tail = [failureLog e])).
Proof.
  intros Hcfg. rewrite (resolver_configured log Hcfg).
  destruct (find_trace world (tokenHeaders circleToken) pipelines
              (log ++ [HttpGet (pipelineUrl slug) (tokenHeaders circleToken)
                         [("branch", branch)]])%list) as (k & Hk & Hs).
  destruct (find pipelines _ _) as [[last|e] l']; cbn [snd] in Hs; subst l'.
  - exists k, (option_map (fun p => revision (vcs p)) last), [].
    split; [exact Hk|]. split; [|now left].
    now rewrite app_nil_r, <- app_assoc.
  - exists k, None, [failureLog e].
    split; [exact Hk|]. split; [|right; split; eauto].
    now rewrite <- !app_assoc.
Qed.
End ResolverEffects.

Lemma verdict_true_inv world headers p :
  verdict world headers p = Returned true ->
  state p = CirclePipelineState.Created
  /\ exists data,
       workflowsResponse world (workflowUrl p) headers = Returned data
       /\ allPassed (workflow_items data) = true.
Proof.
  unfold verdict, isSuccessfulBuild.
  destruct (String.eqb_spec (state p) CirclePipelineState.Created) as [Hs|].
  - unfold bind, getWorkflows, emit, ret.
    destruct (workflowsResponse world (workflowUrl p) headers) as [data|e];
      cbn [fst]; [|discriminate].
    intros [= H]. split; auto. now exists data.
  - unfold ret. cbn [fst]. discriminate.
Qed.

(** X11: when [requireEnv] throws for either variable, the resolver
    returns none and its only effect is one console line with the
    message of the error; no request is made. *)
Theorem missing_variable_only_logs world branch log e :
  requireEnv world "CIRCLE_BUILD_URL" = Thrown e
  \/ (exists buildUrl,
         requireEnv world "CIRCLE_BUILD_URL" = Returned buildUrl
         /\ requireEnv world "CIRCLE_TOKEN" = Thrown e) ->
  getLastSuccessfulBuildRevisionOnBranch world branch log
  = (Returned None, (log ++ [failureLog e])%list).
Proof.
  intros [Hurl|(buildUrl & Hurl & Htoken)].
  - now apply resolver_no_url.
  - now apply resolver_no_token with (buildUrl := buildUrl).
Qed.

Lemma missing_variable_only_logs_witness :
  getLastSuccessfulBuildRevisionOnBranch bareWorld "main" []
  = (Returned None,
     ([] ++ [failureLog (mkError "Missing CIRCLE_BUILD_URL")])%list).
Proof.
  apply (@missing_variable_only_logs bareWorld "main" []
           (mkError "Missing CIRCLE_BUILD_URL")).
  left. reflexivity.
Defined.

(** X12: when both variables are set and the build URL gives no slug,
    the resolver returns none with no effect at all: no request and no
    console line. *)
Theorem unmatched_build_url_is_silent world branch log buildUrl circleToken :
  requireEnv world "CIRCLE_BUILD_URL" = Returned buildUrl ->
  truthySlug (slugCapture world buildUrl) = None ->
  requireEnv world "CIRCLE_TOKEN" = Returned circleToken ->
  getLastSuccessfulBuildRevisionOnBranch world branch log = (Returned None, log).
Proof. apply resolver_no_slug. Qed.

Lemma unmatched_build_url_is_silent_witness :
  getLastSuccessfulBuildRevisionOnBranch
    (worldWithBuildUrl "https://circleci.com/gh/org/repo") "main" []
  = (Returned None, []).
Proof.
  apply (@unmatched_build_url_is_silent
           (worldWithBuildUrl "https://circleci.com/gh/org/repo") "main" []
           "https://circleci.com/gh/org/repo" "secret");
    reflexivity.
Defined.

(** X13: with the configuration present and the pipelines fetched, the
    requests are the pipeline request followed by the workflow requests
    of the created pipelines among the first [k] of the list, in the
    order of the list and with the token header, whatever the verdicts;
    a console line follows only when the result is none. *)
Theorem resolver_requests_follow_pipeline_order
    world branch slug circleToken pipelines log :
  configured world branch slug circleToken pipelines ->
  exists k r tail,
    (k <= length pipelines)%nat
    /\ getLastSuccessfulBuildRevisionOnBranch world branch log
       = (Returned r,
          (log ++ HttpGet (pipelineUrl slug) (tokenHeaders circleToken)
                    [("branch", branch)]
               :: workflowRequests (tokenHeaders circleToken)
                    (firstn k pipelines) ++ tail)%list)
    /\ (tail = [] \/ (r = None /\ exists e, tail = [failureLog e])).
Proof. apply resolver_trace. Qed.

Lemma resolver_requests_follow_pipeline_order_witness :
  exists k r tail,
    (k <= length [P1; P2; P3])%nat
    /\ getLastSuccessfulBuildRevisionOnBranch (sampleWorld secondFails) "main" []
       = (Returned r,
          ([] ++ HttpGet (pipelineUrl "gh/org/repo") (tokenHeaders "secret")
                   [("branch", "main")]
              :: workflowRequests (tokenHeaders "secret")
                   (firstn k [P1; P2; P3]) ++ tail)%list)
    /\ (tail = [] \/ (r = None /\ exists e, tail = [failureLog e])).
Proof.
  exact (@resolver_requests_follow_pipeline_order (sampleWorld secondFails)
           "main" "gh/org/repo" "secret" [P1; P2; P3] []
           (sampleWorld_configured secondFails)).
Defined.

(** X14: whenever the resolver returns a revision, the configuration was
    present and the revision is that of a pipeline of the fetched list
    that is in state [created] and whose fetched workflows were judged
    green. *)
Theorem returned_revision_is_of_a_green_pipeline world branch log r log' :
  getLastSuccessfulBuildRevisionOnBranch world branch log
  = (Returned (Some r), log') ->
  exists slug circleToken pipelines p data,
    configured world branch slug circleToken pipelines
    /\ In p pipelines
    /\ state p = CirclePipelineState.Created
    /\ revision (vcs p) = r
    /\ workflowsResponse world (workflowUrl p) (tokenHeaders circleToken)
       = Returned data
    /\ allPassed (workflow_items data) = true.
Proof.
  destruct (requireEnv world "CIRCLE_BUILD_URL") as [buildUrl|e] eqn:Hurl;
    [|rewrite (resolver_no_url world branch log Hurl); discriminate].
  destruct (requireEnv world "CIRCLE_TOKEN") as [circleToken|e] eqn:Htoken;
    [|rewrite (resolver_no_token world branch log Hurl Htoken); discriminate].
  destruct (truthySlug (slugCapture world buildUrl)) as [slug|] eqn:Hslug;
    [|rewrite (resolver_no_slug world branch log Hurl Hslug Htoken);
      discriminate].
  destruct (pipelinesResponse world (pipelineUrl slug)
              (tokenHeaders circleToken) [("branch", branch)])
    as [[pipelines]|e] eqn:Hp;
    [|rewrite resolver_pipelines_failed
        with (e := e) (buildUrl := buildUrl) (slug := slug)
             (circleToken := circleToken) by assumption;
      discriminate].
  assert (configured world branch slug circleToken pipelines) as Hcfg
    by (exists buildUrl; auto).
  rewrite (resolver_configured log Hcfg).
  destruct (find pipelines _ _) as [[[p|]|e] l'] eqn:Hfind;
    cbn [option_map]; try discriminate.
  intros [= <- <-].
  destruct (find_accepts _ _ _ Hfind) as (before & after & mid & -> & Hcb & _).
  rewrite isSuccessfulBuild_verdict in Hcb.
  assert (verdict world (tokenHeaders circleToken) p = Returned true) as Hv
    by congruence.
  destruct (verdict_true_inv _ _ _ Hv) as (Hs & data & Hr & Hgreen).
  exists slug, circleToken, (before ++ p :: after)%list, p, data.
  repeat split; auto using in_elt.
Qed.

Lemma returned_revision_is_of_a_green_pipeline_witness :
  exists slug circleToken pipelines p data,
    configured (sampleWorld allGreen) "main" slug circleToken pipelines
    /\ In p pipelines
    /\ state p = CirclePipelineState.Created
    /\ revision (vcs p) = "b2"
    /\ workflowsResponse (sampleWorld allGreen) (workflowUrl p)
         (tokenHeaders circleToken) = Returned data
    /\ allPassed (workflow_items data) = true.
Proof.
  apply (@returned_revision_is_of_a_green_pipeline (sampleWorld allGreen)
           "main" [] "b2"
           [HttpGet (pipelineUrl "gh/org/repo") (tokenHeaders "secret")
              [("branch", "main")];
            HttpGet (workflowUrl P2) (tokenHeaders "secret") []]).
  reflexivity.
Defined.

(** ** Properties of the pattern on the build URL *)

(** X15: whatever the pattern captures stands in the build URL right
    after "circleci.com/" and right before the last slash of that line;
    it has no line terminator and at least two slashes. *)
Theorem capture_between_host_and_last_slash buildUrl g :
  slugAndBuildNumber buildUrl = Some g ->
  exists pre n,
    buildUrl = pre ++ "circleci.com/" ++ g ++ String "/" n
    /\ singleLine g = true /\ (2 <= count "/" g)%nat /\ slashes n = 0%nat.
Proof. apply slugAndBuildNumber_sound. Qed.

Lemma capture_between_host_and_last_slash_witness :
  exists pre n,
    "https://circleci.com/gh/org/repo/42"
    = pre ++ "circleci.com/" ++ "gh/org/repo" ++ String "/" n
    /\ singleLine "gh/org/repo" = true
    /\ (2 <= count "/" "gh/org/repo")%nat /\ slashes n = 0%nat.
Proof.
  apply (@capture_between_host_and_last_slash
           "https://circleci.com/gh/org/repo/42" "gh/org/repo").
  reflexivity.
Defined.

(** X16: a capture is never the empty string, so the test
    [if (slugAndBuildNumber)] fails only when the pattern does not
    match. *)
Theorem capture_is_truthy buildUrl :
  truthySlug (slugAndBuildNumber buildUrl) = slugAndBuildNumber buildUrl.
Proof.
  destruct (slugAndBuildNumber buildUrl) as [g|] eqn:E; [|reflexivity].
  destruct (slugAndBuildNumber_sound _ E) as (_ & _ & _ & _ & Hc & _).
  destruct g; [simpl in Hc; lia | reflexivity].
Qed.

(** X17: a build URL made of a prefix without the letter c, then
    "circleci.com/", a single-line project slug with at least two
    slashes, a slash and a last part without slash gives that slug. *)
Theorem build_url_gives_project_slug pre g n :
  count "c" pre = 0%nat -> singleLine g = true ->
  (2 <= count "/" g)%nat -> count "/" n = 0%nat ->
  slugAndBuildNumber (pre ++ "circleci.com/" ++ g ++ String "/" n) = Some g.
Proof. apply slugAndBuildNumber_complete. Qed.

Lemma build_url_gives_project_slug_witness :
  slugAndBuildNumber
    ("https://" ++ "circleci.com/" ++ "gh/org/repo" ++ String "/" "42")
  = Some "gh/org/repo".
Proof.
  apply (@build_url_gives_project_slug "https://" "gh/org/repo" "42");
    try reflexivity; simpl; lia.
Defined.

(** X18: a build URL with fewer than four slashes gives no slug: the
    pattern needs the slash of the host and three more. *)
Theorem few_slashes_no_capture buildUrl :
  (count "/" buildUrl < 4)%nat -> slugAndBuildNumber buildUrl = None.
Proof.
  intros Hlt. destruct (slugAndBuildNumber buildUrl) as [g|] eqn:E; auto.
  destruct (slugAndBuildNumber_sound _ E) as (pre & n & -> & _ & Hc & _).
  exfalso. rewrite !count_append in Hlt.
  change (count "/" "circleci.com/") with 1%nat in Hlt.
  cbn [count] in Hlt. rewrite Ascii.eqb_refl in Hlt. lia.
Qed.

Lemma few_slashes_no_capture_witness :
  slugAndBuildNumber "https://circleci.com/gh" = None.
Proof.
  apply (@few_slashes_no_capture "https://circleci.com/gh").
  simpl. lia.
Defined.

(** X19: with the pattern as the capture, both variables set and a build
    URL of the shape of X17, the first thing the resolver does is request
    the pipelines of the captured project, with the token header and the
    branch as parameter. *)
Theorem pipeline_request_goes_to_captured_project
    world branch pre g n circleToken log :
  requireEnv world "CIRCLE_BUILD_URL"
  = Returned (pre ++ "circleci.com/" ++ g ++ String "/" n) ->
  count "c" pre = 0%nat -> singleLine g = true ->
  (2 <= count "/" g)%nat -> count "/" n = 0%nat ->
  requireEnv world "CIRCLE_TOKEN" = Returned circleToken ->
  exists r events,
    getLastSuccessfulBuildRevisionOnBranch (withPattern world) branch log
    = (Returned r,
       (log ++ HttpGet ("https://circleci.com/api/v2/project/" ++ g ++ "/pipeline")
                 [("Circle-Token", circleToken)] [("branch", branch)]
            :: events)%list).
Proof.
  intros Hurl Hpre Hg Hc Hn Htoken.
  assert (truthySlug (slugCapture (withPattern world)
                        (pre ++ "circleci.com/" ++ g ++ String "/" n))
          = Some g) as Hslug.
  { cbn [slugCapture withPattern].
    rewrite (slugAndBuildNumber_complete pre g n Hpre Hg Hc Hn).
    destruct g; [simpl in Hc; lia | reflexivity]. }
  destruct (pipelinesResponse (withPattern world) (pipelineUrl g)
              (tokenHeaders circleToken) [("branch", branch)])
    as [[pipelines]|e] eqn:Hp.
  - assert (configured (withPattern world) branch g circleToken pipelines)
      as Hcfg.
    { exists (pre ++ "circleci.com/" ++ g ++ String "/" n). auto. }
    destruct (resolver_trace log Hcfg) as (k & r & tail & _ & Hrun & _).
    rewrite Hrun. now eexists _, _.
  - rewrite resolver_pipelines_failed
      with (e := e) (slug := g) (circleToken := circleToken)
           (buildUrl := pre ++ "circleci.com/" ++ g ++ String "/" n)
      by assumption.
    now eexists _, _.
Qed.

Lemma pipeline_request_goes_to_captured_project_witness :
  exists r events,
    getLastSuccessfulBuildRevisionOnBranch
      (withPattern (sampleWorld allGreen)) "main" []
    = (Returned r,
       ([] ++ HttpGet ("https://circleci.com/api/v2/project/" ++ "gh/org/repo"
                       ++ "/pipeline")
                [("Circle-Token", "secret")] [("branch", "main")]
           :: events)%list).
Proof.
  apply (@pipeline_request_goes_to_captured_project (sampleWorld allGreen)
           "main" "https://" "gh/org/repo" "42" "secret" []);
    try reflexivity; simpl; lia.
Defined.

(** ** Deduplicating in two steps *)

Lemma workflowMap_uniqueWorkflows ws :
  workflowMap (uniqueWorkflows ws) = workflowMap ws.
Proof.
  rewrite workflowMap_distinct
    by (rewrite names_uniqueWorkflows; apply NoDup_keys_workflowMap).
  unfold uniqueWorkflows, Map.values. rewrite map_map.
  rewrite <- (map_id (workflowMap ws)) at 2.
  apply map_ext_in. intros [k v] Hin. cbn [snd].
  now destruct (entries_workflowMap _ _ _ Hin) as [-> _].
Qed.

Lemma workflowMap_app ws more :
  workflowMap (ws ++ more) = fold_left dedupeStep more (workflowMap ws).
Proof. unfold workflowMap. apply fold_left_app. Qed.

(** X20: deduplicating a first part of the workflows and then the result
    together with the rest gives what deduplicating everything at once
    gives; with an empty rest this is the idempotence. *)
Theorem dedupe_in_two_steps ws more :
  uniqueWorkflows (uniqueWorkflows ws ++ more) = uniqueWorkflows (ws ++ more).
Proof.
  unfold uniqueWorkflows at 1.
  rewrite workflowMap_app, workflowMap_uniqueWorkflows, <- workflowMap_app.
  reflexivity.
Qed.
